(** * Querying_KG: natural-language question -> Cypher -> retry loop

    A shallow embedding of [src/Querying_KG.ipynb] and the properties its
    specification states about it.

    Conventions of the embedding.
    - A Python [str] is a [list ascii]; a character is read as the code
      point of the same number, so the texts of this development are the
      Python strings whose code points lie in 0..255, and the character
      classes below are the ones CPython uses on that range
      ([str.isspace], [\s], [\w], [str.lower], [str.upper]).
    - [re] patterns are values of [regex], a syntax for the constructs the
      notebook's patterns use; [regex_source] prints a pattern back to the
      text written in the notebook.  All calls in the notebook pass
      [re.IGNORECASE]; the calls that use [.] also pass [re.DOTALL].
      [run] enumerates the ways a pattern matches at a position in the
      order a backtracking matcher tries them, so the head of the list is
      the match Python reports.
    - Exceptions are values: a function that may raise returns [result].
    - The text-generation service and the graph database are oracles of a
      [World]; every call is recorded in a trace.  [print] calls are
      presentation only and are not part of the model.
    - Of the [display] calls, the one that shows the answer is part of
      the model ([display_markdown]): its text comes from the service,
      and [Markdown] loads a text that starts with http or that names an
      existing file, which can raise inside the [try] block.  The other
      [display] calls show the result table and headings that the
      notebook writes itself; these begin with a mark-up character or a
      symbol, so none is taken for a URL, and they are taken to name no
      file.
    - The lines typed at the prompt are a list.  When the list is used up
      [input] raises [EOFError], which leaves the function
      ([InputExhausted]); the function returns only after a sentinel
      ([SentinelRead]).
    - The retry loop is a function with fuel; [retry_loop_rule] shows that
      [max_attempts] passes are always enough.  The statement
      [attempt += 1] that closes the loop body in the notebook is never
      reached (the [try] block ends in [break], the handler in [continue]
      or [break]) and has no counterpart here. *)

From Stdlib Require Import Ascii String DecimalString.
From Stdlib Require Import List Bool Arith Lia NArith.
Import ListNotations.

(* ================================================================== *)
(** * Characters and strings *)

Module Py.

Definition str := list ascii.

Definition py (s : string) : str := list_ascii_of_string s.

Definition code (c : ascii) : N := N_of_ascii c.

Definition between (lo hi : N) (c : ascii) : bool :=
  (N.leb lo (code c) && N.leb (code c) hi)%bool.

(** [str.isspace] / [\s] on code points below 256. *)
Definition is_space (c : ascii) : bool :=
  between 9 13 c || between 28 32 c || N.eqb (code c) 133 || N.eqb (code c) 160.

(** [\w]: alphanumeric ([str.isalnum]) or underscore. *)
Definition is_word (c : ascii) : bool :=
  between 48 57 c || between 65 90 c || between 97 122 c || N.eqb (code c) 95
  || N.eqb (code c) 170 || N.eqb (code c) 178 || N.eqb (code c) 179
  || N.eqb (code c) 181 || between 185 186 c || between 188 190 c
  || between 192 214 c || between 216 246 c || between 248 255 c.

Definition word_opt (o : option ascii) : bool :=
  match o with
  | Some c => is_word c
  | None => false
  end.

(** [str.lower] on one character. *)
Definition lower (c : ascii) : ascii :=
  if between 65 90 c || between 192 214 c || between 216 222 c
  then ascii_of_N (code c + 32) else c.

(** [str.upper] on one character.  The sharp s becomes two letters; the
    micro sign and the y with diaeresis have their capital outside this
    range and stay as they are (they stay outside ASCII either way). *)
Definition upper_char (c : ascii) : str :=
  if between 97 122 c || between 224 246 c || between 248 254 c
  then [ascii_of_N (code c - 32)]
  else if N.eqb (code c) 223 then ["S"%char; "S"%char]
  else [c].

Definition upper (s : str) : str := flat_map upper_char s.

Definition lower_str (s : str) : str := map lower s.

Definition str_eqb (a b : str) : bool :=
  if list_eq_dec ascii_dec a b then true else false.

Fixpoint drop_while (p : ascii -> bool) (s : str) : str :=
  match s with
  | [] => []
  | c :: s' => if p c then drop_while p s' else s
  end.

(** [s.lstrip()], [s.rstrip()], [s.strip()]. *)
Definition lstrip (s : str) : str := drop_while is_space s.
Definition rstrip (s : str) : str := rev (drop_while is_space (rev s)).
Definition strip (s : str) : str := rstrip (lstrip s).

(** [s.endswith(c)] for a one-character suffix. *)
Definition endswith_char (c : ascii) (s : str) : bool :=
  match rev s with
  | x :: _ => Ascii.eqb x c
  | [] => false
  end.

Fixpoint starts_with (p s : str) : bool :=
  match p, s with
  | [], _ => true
  | a :: p', b :: s' => Ascii.eqb a b && starts_with p' s'
  | _ :: _, [] => false
  end.

(** [sub in s]. *)
Fixpoint contains (sub s : str) : bool :=
  starts_with sub s ||
  match s with
  | [] => false
  | _ :: s' => contains sub s'
  end.

(** [sep.join(xs)]. *)
Fixpoint join (sep : str) (xs : list str) : str :=
  match xs with
  | [] => []
  | [x] => x
  | x :: xs' => x ++ sep ++ join sep xs'
  end.

(** [str(n)] for a non-negative integer. *)
Definition str_of_nat (n : nat) : str :=
  py (NilZero.string_of_uint (Nat.to_uint n)).

(** Exceptions carry their message; [str(e)] is [exn_str]. *)
Inductive exn : Type :=
| ValueError (msg : str)
| ServiceError (msg : str).

Definition exn_str (e : exn) : str :=
  match e with
  | ValueError m => m
  | ServiceError m => m
  end.

Inductive result (A : Type) : Type :=
| Ok (a : A)
| Raise (e : exn).

Arguments Ok {A} a.
Arguments Raise {A} e.

End Py.

Import Py.

(* ================================================================== *)
(** * The fragment of [re] the notebook uses *)

Module Re.

Inductive cclass : Type :=
| CAny      (* [.] under DOTALL *)
| CSpace.   (* [\s] *)

Inductive regex : Type :=
| REps
| RLit (c : ascii)          (* a literal character, under IGNORECASE *)
| RBound                    (* [\b] *)
| REnd                      (* [\Z] *)
| RSeq (r1 r2 : regex)
| RAlt (r1 r2 : regex)      (* [r1|r2] *)
| ROpt (r : regex)          (* [r?] *)
| RStar (c : cclass)        (* [c*] *)
| RPlus (c : cclass)        (* [c+] *)
| RLazy (c : cclass)        (* [c*?] *)
| RNonCap (r : regex)       (* [(?:r)] *)
| RGroup (r : regex).       (* [(r)], group 1 *)

Fixpoint lits (w : str) : regex :=
  match w with
  | [] => REps
  | c :: w' => RSeq (RLit c) (lits w')
  end.

(** The text of a pattern as the notebook writes it. *)
Definition class_source (c : cclass) : str :=
  match c with
  | CAny => py "."
  | CSpace => py "\s"
  end.

Fixpoint regex_source (r : regex) : str :=
  match r with
  | REps => []
  | RLit c => if Ascii.eqb c "010"%char then py "\n" else [c]
  | RBound => py "\b"
  | REnd => py "\Z"
  | RSeq r1 r2 => regex_source r1 ++ regex_source r2
  | RAlt r1 r2 => regex_source r1 ++ py "|" ++ regex_source r2
  | ROpt r => regex_source r ++ py "?"
  | RStar c => class_source c ++ py "*"
  | RPlus c => class_source c ++ py "+"
  | RLazy c => class_source c ++ py "*?"
  | RNonCap r => py "(?:" ++ regex_source r ++ py ")"
  | RGroup r => py "(" ++ regex_source r ++ py ")"
  end.

(** A position in the subject: the character before it (if any), the text
    from it on, and the text of group 1 when the group has been closed. *)
Record mstate : Type := MState {
  prev : option ascii;
  rest : str;
  grp : option str
}.

(** [\b]: exactly one of the two neighbours is a word character. *)
Definition at_boundary (b : option ascii) (s : str) : bool :=
  xorb (word_opt b) (word_opt (hd_error s)).

(** A literal under IGNORECASE: both sides are compared in lower case. *)
Definition ci_eqb (x c : ascii) : bool := Ascii.eqb (lower x) (lower c).

Definition in_class (c : cclass) (x : ascii) : bool :=
  match c with
  | CAny => true
  | CSpace => is_space x
  end.

(** The positions reached by consuming 0, 1, 2, ... characters of a class. *)
Fixpoint spans (c : cclass) (b : option ascii) (s : str) (g : option str)
  : list mstate :=
  MState b s g ::
  match s with
  | x :: s' => if in_class c x then spans c (Some x) s' g else []
  | [] => []
  end.

(** The text consumed between two positions of the same subject. *)
Definition consumed (from to : str) : str :=
  firstn (length from - length to) from.

Fixpoint run (r : regex) (st : mstate) : list mstate :=
  match r with
  | REps => [st]
  | RLit c =>
      match rest st with
      | x :: s' => if ci_eqb x c then [MState (Some x) s' (grp st)] else []
      | [] => []
      end
  | RBound => if at_boundary (prev st) (rest st) then [st] else []
  | REnd => match rest st with [] => [st] | _ :: _ => [] end
  | RSeq r1 r2 => flat_map (run r2) (run r1 st)
  | RAlt r1 r2 => run r1 st ++ run r2 st
  | ROpt r' => run r' st ++ [st]
  | RStar c => rev (spans c (prev st) (rest st) (grp st))
  | RPlus c => rev (tl (spans c (prev st) (rest st) (grp st)))
  | RLazy c => spans c (prev st) (rest st) (grp st)
  | RNonCap r' => run r' st
  | RGroup r' =>
      map (fun st' => MState (prev st') (rest st')
                             (Some (consumed (rest st) (rest st'))))
          (run r' st)
  end.

(** The leftmost match at or after a position: how many characters were
    skipped before it starts, and the position where it ends. *)
Fixpoint search_from (r : regex) (b : option ascii) (s : str)
  : option (nat * mstate) :=
  match run r (MState b s None) with
  | st :: _ => Some (0, st)
  | [] =>
      match s with
      | [] => None
      | x :: s' =>
          match search_from r (Some x) s' with
          | Some (i, st) => Some (S i, st)
          | None => None
          end
      end
  end.

(** [re.search(r, s, flags)]; Python tests the result for truth. *)
Definition re_search (r : regex) (s : str) : option (nat * mstate) :=
  search_from r None s.

Definition found (r : regex) (s : str) : bool :=
  match re_search r s with Some _ => true | None => false end.

Definition group1 (st : mstate) : str :=
  match grp st with Some g => g | None => [] end.

(** [re.findall(r, s, flags)] for a pattern with one group: group 1 of each
    match, left to right, each search starting where the last match ended
    (one character further after an empty match). *)
Fixpoint findall_from (fuel : nat) (r : regex) (b : option ascii) (s : str)
  : list str :=
  match fuel with
  | 0 => []
  | S fuel' =>
      match search_from r b s with
      | None => []
      | Some (i, st) =>
          group1 st ::
          (if length (rest st) <? length (skipn i s)
           then findall_from fuel' r (prev st) (rest st)
           else match rest st with
                | [] => []
                | x :: s' => findall_from fuel' r (Some x) s'
                end)
      end
  end.

Definition re_findall (r : regex) (s : str) : list str :=
  findall_from (S (length s)) r None s.

End Re.

Import Re.

(* ================================================================== *)
(** * The notebook's pure functions *)

(** [r'\bWORD\b'] *)
Definition word_pattern (w : string) : regex :=
  RSeq RBound (RSeq (lits (py w)) RBound).

(** [r'\bDETACH\s+DELETE\b'] *)
Definition detach_delete_pattern : regex :=
  RSeq RBound
    (RSeq (lits (py "DETACH"))
       (RSeq (RPlus CSpace) (RSeq (lits (py "DELETE")) RBound))).

Definition destructive_patterns : list regex :=
  [ word_pattern "DROP"; word_pattern "DELETE"; word_pattern "CREATE";
    word_pattern "SET"; word_pattern "REMOVE"; word_pattern "MERGE";
    detach_delete_pattern ].

Definition semicolon : ascii := ";"%char.

(** The message of the error the validator raises. *)
Definition blocked_message (pattern : regex) : str :=
  py "Blocked potentially destructive operation: " ++ regex_source pattern.

(** [validate_cypher_query] *)
Definition validate_cypher_query (cypher_query : str) : result str :=
  match find (fun pattern => found pattern cypher_query) destructive_patterns with
  | Some pattern =>
      Raise (ValueError (blocked_message pattern))
  | None =>
      let cypher_query := strip cypher_query in
      if negb (endswith_char semicolon cypher_query)
      then Ok (cypher_query ++ [semicolon])
      else Ok cypher_query
  end.

Definition fence : str := py "```".

(** [r'```(?:cypher|neo4j)?\s*(.*?)```'] *)
Definition cypher_pattern : regex :=
  RSeq (lits fence)
    (RSeq (ROpt (RNonCap (RAlt (lits (py "cypher")) (lits (py "neo4j")))))
       (RSeq (RStar CSpace)
          (RSeq (RGroup (RLazy CAny)) (lits fence)))).

Definition newline : ascii := "010"%char.

(** [r'(MATCH.*?(?:RETURN|;|\n\n|\Z))'] *)
Definition match_pattern : regex :=
  RGroup
    (RSeq (lits (py "MATCH"))
       (RSeq (RLazy CAny)
          (RNonCap
             (RAlt (lits (py "RETURN"))
                (RAlt (lits [semicolon])
                   (RAlt (lits [newline; newline]) REnd)))))).

Definition cypher_keywords : list str :=
  [py "MATCH"; py "RETURN"; py "WHERE"; py "WITH"].

(** [extract_cypher_from_response] *)
Definition extract_cypher_from_response (response_text : str) : result str :=
  match re_findall cypher_pattern response_text with
  | m :: _ => Ok (strip m)
  | [] =>
      match re_findall match_pattern response_text with
      | m :: _ => Ok (strip m)
      | [] =>
          if existsb (fun keyword => contains keyword (upper response_text))
                     cypher_keywords
          then Ok (strip response_text)
          else Raise (ValueError
                 (py "Could not extract valid Cypher query from response"))
      end
  end.

(* ================================================================== *)
(** * External collaborators, traces and the exception monad *)

Module Ext.

(** One row of a query result: column name and the text of its value. *)
Definition row := list (str * str).

Inductive event : Type :=
| LLMCall (prompt : str) (answer : result str)
| DBQuery (statement : str) (answer : result (list row)).

Definition trace := list event.

(** The two services, and what IPython's [Markdown] meets when it is
    given a text: whether the text is the name of an existing file
    ([os.path.exists]), and what loading it, as a URL or as a file,
    comes to.  What a call returns may depend on everything that happened
    before it. *)
Record World : Type := {
  llm : trace -> str -> result str;
  db : trace -> str -> result (list row);
  path_exists : trace -> str -> bool;
  load : trace -> str -> result unit
}.

Definition is_llm (e : event) : bool :=
  match e with LLMCall _ _ => true | DBQuery _ _ => false end.

Definition is_db (e : event) : bool :=
  match e with DBQuery _ _ => true | LLMCall _ _ => false end.

Definition is_failed_db (e : event) : bool :=
  match e with DBQuery _ (Raise _) => true | _ => false end.

Definition executed (tr : trace) : list str :=
  flat_map (fun e => match e with DBQuery q _ => [q] | LLMCall _ _ => [] end) tr.

Definition prompts (tr : trace) : list str :=
  flat_map (fun e => match e with LLMCall p _ => [p] | DBQuery _ _ => [] end) tr.

(** Computations that may raise and that extend the trace. *)
Definition M (A : Type) : Type := trace -> result A * trace.

Definition ret {A} (a : A) : M A := fun tr => (Ok a, tr).

Definition raise {A} (e : exn) : M A := fun tr => (Raise e, tr).

Definition bind {A B} (m : M A) (k : A -> M B) : M B :=
  fun tr =>
    match m tr with
    | (Ok a, tr') => k a tr'
    | (Raise e, tr') => (Raise e, tr')
    end.

(** [try: m  except Exception as e: h e] *)
Definition try_except {A} (m : M A) (h : exn -> M A) : M A :=
  fun tr =>
    match m tr with
    | (Ok a, tr') => (Ok a, tr')
    | (Raise e, tr') => h e tr'
    end.

Definition lift {A} (r : result A) : M A := fun tr => (r, tr).

End Ext.

Import Ext.

Declare Scope py_scope.
Delimit Scope py_scope with py.
Notation "x <- m ;; k" := (bind m (fun x => k))
  (at level 61, m at next level, right associativity) : py_scope.
Open Scope py_scope.

(* ================================================================== *)
(** * The notebook's functions that talk to the services *)

Definition dq : ascii := "034"%char.
Definition star : ascii := "042"%char.

Definition max_attempts : nat := 3.

(** [if x:] on a string. *)
Definition truthy (s : str) : bool :=
  match s with [] => false | _ :: _ => true end.

Definition truthy_opt (o : option str) : bool :=
  match o with Some s => truthy s | None => false end.

Section Notebook.

(** [DataFrame.to_string(max_rows=n)] and the [repr] of a list of column
    names are pandas' and Python's own text rendering. *)
Variable to_string : nat -> list row -> str.
Variable repr_columns : list str -> str.

Variable w : World.

(** [get_openai_response]: the handler only prints and re-raises. *)
Definition get_openai_response (prompt : str) : M str :=
  fun tr => let r := llm w tr prompt in (r, tr ++ [LLMCall prompt r]).

Definition improvement_prompt (original_cypher error_message schema : str) : str :=
  py "
    You are a Neo4j Cypher expert. The following query failed with an error. Please fix it.

    Original Query:
    ```cypher
    "
  ++ original_cypher
  ++ py "
    ```

    Error Message:
    "
  ++ error_message
  ++ py "

    Available Schema:
    "
  ++ schema
  ++ py "

    Rules:
    1. Only use nodes, relationships, and properties that exist in the schema
    2. Use proper Cypher syntax
    3. Return only the corrected Cypher query in a code block
    4. Make sure property names and node labels match exactly what's in the schema
    5. Use appropriate aggregation functions when needed
    ".

(** [improve_cypher_with_context]: [None] when anything goes wrong. *)
Definition improve_cypher_with_context
  (original_cypher error_message schema : str) : M (option str) :=
  try_except
    (response_text <- get_openai_response
                        (improvement_prompt original_cypher error_message schema) ;;
     improved_cypher <- lift (extract_cypher_from_response response_text) ;;
     validated <- lift (validate_cypher_query improved_cypher) ;;
     ret (Some validated))
    (fun _ => ret None).

Definition base_prompt (question schema : str) : str :=
  py "
    You are an expert Neo4j Cypher developer with deep understanding of graph databases.

    Your task: Convert this natural language question into a precise Neo4j Cypher query.

    Question: "
  ++ [dq]
  ++ question
  ++ [dq]
  ++ py "

    Available Schema:
    "
  ++ schema
  ++ py "

    CRITICAL REQUIREMENTS:
    1. Use ONLY nodes, relationships, and properties that exist in the provided schema
    2. Match property names and node labels EXACTLY as shown in the schema
    3. Use appropriate WHERE clauses for filtering
    4. Use LIMIT when results might be large (default LIMIT 20 unless user specifies otherwise)
    5. Use proper aggregation functions (COUNT, SUM, AVG, etc.) when appropriate
    6. Return results in a meaningful order using ORDER BY when relevant
    7. Use CASE-INSENSITIVE comparisons with toLower() for text searches
    8. Handle potential null values appropriately

    COMMON PATTERNS:
    - For "
  ++ [dq]
  ++ py "find/show/get"
  ++ [dq]
  ++ py ": Use MATCH ... RETURN
    - For "
  ++ [dq]
  ++ py "how many/count"
  ++ [dq]
  ++ py ": Use MATCH ... RETURN COUNT("
  ++ [star]
  ++ py ")
    - For "
  ++ [dq]
  ++ py "average/mean"
  ++ [dq]
  ++ py ": Use MATCH ... RETURN AVG()
    - For "
  ++ [dq]
  ++ py "highest/lowest"
  ++ [dq]
  ++ py ": Use ORDER BY ... DESC/ASC LIMIT 1
    - For text searches: Use WHERE toLower(property) CONTAINS toLower("
  ++ [dq]
  ++ py "search_term"
  ++ [dq]
  ++ py ")

    Return ONLY the Cypher query in a code block marked with ```cypher
    ".

Definition generation_prompt (question schema : str)
  (previous_attempts : option str) : str :=
  if truthy_opt previous_attempts
  then base_prompt question schema
       ++ [newline; newline] ++ py "Previous failed attempts:" ++ [newline]
       ++ match previous_attempts with Some p => p | None => [] end
       ++ [newline] ++ py "Please try a different approach."
  else base_prompt question schema.

(** [generate_enhanced_cypher]: every failure is re-raised as a
    [ValueError] that quotes the original message. *)
Definition generate_enhanced_cypher (question schema : str)
  (previous_attempts : option str) : M str :=
  try_except
    (response_text <- get_openai_response
                        (generation_prompt question schema previous_attempts) ;;
     cypher <- lift (extract_cypher_from_response response_text) ;;
     lift (validate_cypher_query cypher))
    (fun e => raise (ValueError
       (py "Failed to generate valid Cypher query: " ++ exn_str e))).

(** A [DataFrame] built from result rows: its columns are the keys of the
    rows in order of first appearance. *)
Fixpoint add_new (seen : list str) (ks : list str) : list str :=
  match ks with
  | [] => seen
  | k :: ks' =>
      if existsb (str_eqb k) seen then add_new seen ks'
      else add_new (seen ++ [k]) ks'
  end.

Definition df_columns (df : list row) : list str :=
  fold_left (fun seen r => add_new seen (map fst r)) df [].

(** [DataFrame.empty]: some axis has length 0. *)
Definition df_empty (df : list row) : bool :=
  (length df =? 0) || (length (df_columns df) =? 0).

Definition no_results_message : str :=
  py "No results were found for your query. This could mean:" ++ [newline]
  ++ py "- The data you're looking for doesn't exist in the database" ++ [newline]
  ++ py "- The search criteria might be too specific" ++ [newline]
  ++ py "- There might be a slight mismatch in the query logic".

Definition reasoning_prompt (question : str) (results_df : list row)
  (cypher_query : str) (num_results : nat) (columns : list str) : str :=
  py "
    You are an expert data analyst providing insights based on database query results.

    Original Question: "
  ++ [dq]
  ++ question
  ++ [dq]
  ++ py "

    Query Executed:
    ```cypher
    "
  ++ cypher_query
  ++ py "
    ```

    Results Data (first 50 rows):
    "
  ++ to_string 50 results_df
  ++ py "

    Analysis Context:
    - Number of results: "
  ++ str_of_nat num_results
  ++ py "
    - Data columns: "
  ++ repr_columns columns
  ++ py "

    INSTRUCTIONS:
    1. Provide a clear, direct answer to the user's question
    2. Include specific numbers, names, and values from the data
    3. Highlight key insights or patterns you notice
    4. If the data is extensive, summarize the most important findings
    5. Use natural language that's easy to understand
    6. If there are interesting relationships or trends, mention them
    7. Be factual and base your response ONLY on the provided data

    Format your response as a clear, informative answer that directly addresses the user's question.
    ".

(** [provide_intelligent_answer] *)
Definition provide_intelligent_answer (question : str) (results_df : list row)
  (cypher_query : str) : M str :=
  if df_empty results_df then ret no_results_message
  else
    let num_results := length results_df in
    let columns := df_columns results_df in
    try_except
      (get_openai_response
         (reasoning_prompt question results_df cypher_query num_results columns))
      (fun e => ret (py "Retrieved " ++ str_of_nat num_results
                     ++ py " results, but couldn't generate detailed analysis. Error: "
                     ++ exn_str e)).

(** ** The retry loop of [query_neo4j_with_reasoning] *)

(** The local variables the loop reads and writes.  [cypher] is [None]
    while the name is not bound (['cypher' in locals()] is false). *)
Record locals : Type := Locals {
  attempt : nat;
  previous_attempts : list str;
  cypher : option str
}.

(** How the loop is left. *)
Inductive outcome : Type :=
| Answered (query : str) (results : list row) (ai_answer : str)
| NoInitialQuery (error_msg : str)
| FinalFailure (attempts : nat) (error_msg : str) (last_query : option str)
| LoopConditionFalse.

Definition attempt_record (attempt : nat) (cypher error_msg : str) : str :=
  py "Attempt " ++ str_of_nat attempt ++ py ": " ++ cypher
  ++ py " (Error: " ++ error_msg ++ py ")".

(** What the [except] clause of the loop decides. *)
Inductive handled : Type :=
| Continue (l : locals)
| Break (o : outcome) (l : locals).

Definition on_exception (schema : str) (l : locals) (e : exn)
  : trace -> handled * trace :=
  fun tr =>
    let error_msg := exn_str e in
    let final := Break (FinalFailure (attempt l) error_msg (cypher l)) l in
    if attempt l <? max_attempts then
      match cypher l with
      | Some c =>
          let l1 := Locals (attempt l)
                      (previous_attempts l ++ [attempt_record (attempt l) c error_msg])
                      (cypher l) in
          match improve_cypher_with_context c error_msg schema tr with
          | (Ok improved_cypher, tr') =>
              let l2 :=
                if truthy_opt improved_cypher
                then Locals (attempt l1) (previous_attempts l1) improved_cypher
                else l1 in
              (Continue (Locals (attempt l2 + 1) (previous_attempts l2) (cypher l2)), tr')
          | (Raise _, tr') =>
              (Break (FinalFailure (attempt l1) error_msg (cypher l1)) l1, tr')
          end
      | None => (Break (NoInitialQuery error_msg) l, tr)
      end
    else (final, tr).

(** [display(Markdown(text))].  The constructor takes a text that starts
    with http for a URL and downloads it, and takes a text that names an
    existing file for that file and reads it; when this fails the
    exception leaves the call.  Any other text is shown as it is. *)
Definition display_markdown (text : str) : trace -> result unit :=
  fun tr =>
    if starts_with (py "http") text then load w tr text
    else if path_exists w tr text then load w tr text
    else Ok tt.

(** One pass through the body of [while attempt <= max_attempts].  The
    answer of the analysis is displayed inside the [try] block. *)
Definition iteration (question schema : str) (l : locals)
  : trace -> handled * trace :=
  fun tr =>
    let context :=
      match previous_attempts l with
      | [] => None
      | _ :: _ => Some (join [newline] (previous_attempts l))
      end in
    match generate_enhanced_cypher question schema context tr with
    | (Raise e, tr1) => on_exception schema l e tr1
    | (Ok c, tr1) =>
        let l1 := Locals (attempt l) (previous_attempts l) (Some c) in
        let r := db w tr1 c in
        let tr2 := tr1 ++ [DBQuery c r] in
        match r with
        | Raise e => on_exception schema l1 e tr2
        | Ok results =>
            let df := match results with [] => [] | _ :: _ => results end in
            match provide_intelligent_answer question df c tr2 with
            | (Ok ai_answer, tr3) =>
                match display_markdown ai_answer tr3 with
                | Ok _ => (Break (Answered c results ai_answer) l1, tr3)
                | Raise e => on_exception schema l1 e tr3
                end
            | (Raise e, tr3) => on_exception schema l1 e tr3
            end
        end
    end.

Fixpoint retry_loop (fuel : nat) (question schema : str) (l : locals)
  (tr : trace) : option (outcome * locals * trace) :=
  if attempt l <=? max_attempts then
    match fuel with
    | 0 => None
    | S fuel' =>
        match iteration question schema l tr with
        | (Continue l', tr') => retry_loop fuel' question schema l' tr'
        | (Break o l', tr') => Some (o, l', tr')
        end
    end
  else Some (LoopConditionFalse, l, tr).

(** One question: [attempt = 1], [previous_attempts = []]; [cypher] keeps
    whatever binding the function's frame has when the question is asked. *)
Definition session (question schema : str) (cypher0 : option str) (tr : trace)
  : option (outcome * locals * trace) :=
  retry_loop max_attempts question schema (Locals 1 [] cypher0) tr.

(** ** The question loop *)

Definition sentinels : list str := [py "exit"; py "quit"; py "q"].

(** How the question loop is left: a sentinel was read and the function
    returns, or [input] found nothing more to read and its [EOFError]
    leaves the function. *)
Inductive loop_end : Type :=
| SentinelRead
| InputExhausted.

(** The lines typed at the prompt, one after the other.  Only a sentinel
    ends [while True]; an empty line is skipped.  Each question finds
    [cypher] as the question before it left it: the name belongs to the
    function, not to the question. *)
Fixpoint question_loop (schema : str) (inputs : list str)
  (cypher0 : option str) (tr : trace)
  : option (list outcome * loop_end * trace) :=
  match inputs with
  | [] => Some ([], InputExhausted, tr)
  | line :: inputs' =>
      let question := strip line in
      if existsb (str_eqb (lower_str question)) sentinels
      then Some ([], SentinelRead, tr)
      else if negb (truthy question) then question_loop schema inputs' cypher0 tr
      else
        match session question schema cypher0 tr with
        | None => None
        | Some (o, l, tr') =>
            match question_loop schema inputs' (cypher l) tr' with
            | Some (os, ending, tr'') => Some (o :: os, ending, tr'')
            | None => None
            end
        end
  end.

(** [query_neo4j_with_reasoning].  [schema] is the text [graph.get_schema]
    gave, or the text the notebook puts in its place when that failed.
    Nothing is bound to [cypher] when the function starts. *)
Definition query_neo4j_with_reasoning (schema : str) (inputs : list str)
  : option (list outcome * loop_end * trace) :=
  question_loop schema inputs None [].

End Notebook.

(* ================================================================== *)
(** * Vocabulary of the specification *)

Module Spec.

Definition first_char (s : str) : option ascii := hd_error s.
Definition last_char (s : str) : option ascii := hd_error (rev s).

(** The character before the position reached after reading [p], when the
    character before [p] is [b]. *)
Definition prev_after (b : option ascii) (p : str) : option ascii :=
  match last_char p with
  | Some x => Some x
  | None => b
  end.

(** The same word in any letter case. *)
Definition same_letters (x w : str) : Prop := lower_str x = lower_str w.

(** A word written between [p] and [q] stands on word boundaries. *)
Definition whole_word (p q : str) : Prop :=
  word_opt (last_char p) = false /\ word_opt (first_char q) = false.

Definition contains_keyword (w s : str) : Prop :=
  exists p x q, s = p ++ x ++ q /\ same_letters x w /\ whole_word p q.

Definition contains_detach_delete (s : str) : Prop :=
  exists p x ws y q,
    s = p ++ x ++ ws ++ y ++ q /\ same_letters x (py "DETACH") /\
    ws <> [] /\ forallb is_space ws = true /\
    same_letters y (py "DELETE") /\ whole_word p q.

Definition denylist : list string :=
  ["DROP"; "DELETE"; "CREATE"; "SET"; "REMOVE"; "MERGE"]%string.

Definition denylisted (s : str) : Prop :=
  (exists kw, In kw denylist /\ contains_keyword (py kw) s)
  \/ contains_detach_delete s.

(** No white space around the text. *)
Definition trimmed (s : str) : Prop :=
  (forall c, first_char s = Some c -> is_space c = false) /\
  (forall c, last_char s = Some c -> is_space c = false).

(** [P] holds of the text that follows [pre], and of no text that starts
    earlier inside [pre]. *)
Definition earliest (P : str -> bool) (pre rest : str) : Prop :=
  P rest = true /\
  forall a b, pre = a ++ b -> b <> [] -> P (b ++ rest) = false.

(** [s] begins with the letters of [w], in any letter case. *)
Fixpoint starts_ci (w s : str) : bool :=
  match w, s with
  | [], _ => true
  | c :: w', x :: s' => Ascii.eqb (lower x) (lower c) && starts_ci w' s'
  | _ :: _, [] => false
  end.

(** The contents of a fenced block without its language tag. *)
Definition untagged (body : str) : str :=
  if starts_ci (py "cypher") body then skipn 6 body
  else if starts_ci (py "neo4j") body then skipn 5 body
  else body.

(** Where the fallback pattern stops reading: at the letters RETURN in
    any letter case, be they a word or part of one, at a semicolon, at a
    blank line, or at the end of the text. *)
Definition stops_here (t : str) : bool :=
  starts_ci (py "RETURN") t || starts_with [semicolon] t
  || starts_with [newline; newline] t
  || match t with [] => true | _ :: _ => false end.

End Spec.

Import Spec.

(* ================================================================== *)
(** * Vocabulary of the proofs *)

Definition all_ascii : list ascii := map ascii_of_nat (seq 0 256).

(** An ASCII letter, in either case. *)
Definition is_letter (c : ascii) : bool := between 65 90 c || between 97 122 c.

Definition terminated (q : str) : str :=
  if endswith_char semicolon q then q else q ++ [semicolon].

(** A character that [re.IGNORECASE] cannot confuse with another one. *)
Definition caseless (c : ascii) : bool :=
  forallb (fun x => Bool.eqb (Ascii.eqb (lower x) (lower c)) (Ascii.eqb c x))
          all_ascii.

(** [earliest], checked by running through the positions. *)
Definition earliestb (P : str -> bool) (pre rest0 : str) : bool :=
  P rest0 && forallb (fun i => negb (P (skipn i pre ++ rest0))) (seq 0 (length pre)).

Definition backtick : ascii := "`"%char.

Definition terminator : regex :=
  RNonCap
    (RAlt (lits (py "RETURN"))
       (RAlt (lits [semicolon]) (RAlt (lits [newline; newline]) REnd))).

(** What becomes of a service answer on its way through the extractor
    and the validator. *)
Definition checked (answer : result str) : result str :=
  match answer with
  | Ok response_text =>
      match extract_cypher_from_response response_text with
      | Ok candidate => validate_cypher_query candidate
      | Raise e => Raise e
      end
  | Raise e => Raise e
  end.

Definition generated (answer : result str) : result str :=
  match checked answer with
  | Ok v => Ok v
  | Raise e =>
      Raise (ValueError (py "Failed to generate valid Cypher query: " ++ exn_str e))
  end.

Definition repaired (answer : result str) : option str :=
  match checked answer with
  | Ok v => Some v
  | Raise _ => None
  end.

Definition context_of (previous_attempts : list str) : option str :=
  match previous_attempts with
  | [] => None
  | _ :: _ => Some (join [newline] previous_attempts)
  end.

(** The request of the first attempt: there are no earlier attempts. *)
Definition first_prompt (question schema : str) : str :=
  generation_prompt question schema None.

Definition count (p : event -> bool) (tr : trace) : nat := length (filter p tr).

(** The statement came out of the validator. *)
Definition validated (statement : str) : Prop :=
  exists raw, validate_cypher_query raw = Ok statement.

Definition loop_invariant (l : locals) (tr : trace) : Prop :=
  1 <= attempt l <= max_attempts /\
  count is_db tr + 1 <= attempt l /\
  length (previous_attempts l) + 1 = attempt l /\
  Forall validated (executed tr).

Definition session_end (o : outcome) (l : locals) (tr : trace) : Prop :=
  attempt l <= max_attempts /\
  count is_db tr <= attempt l /\
  length (previous_attempts l) + 1 = attempt l /\
  Forall validated (executed tr) /\
  match o with
  | Answered query _ _ => count is_failed_db tr < max_attempts /\ cypher l = Some query
  | NoInitialQuery _ => count is_failed_db tr < max_attempts /\ cypher l = None
  | FinalFailure n _ last => n = max_attempts /\ attempt l = max_attempts /\ last = cypher l
  | LoopConditionFalse => False
  end.

(** [g] is a piece of [s]. *)
Definition substring (g s : str) : Prop := exists a c, s = a ++ g ++ c.

Definition is_ok_db (e : event) : bool :=
  match e with DBQuery _ (Ok _) => true | _ => false end.

(** Records that carry the attempt numbers [k], [k + 1], ... in order. *)
Fixpoint numbered (k : nat) (records : list str) : Prop :=
  match records with
  | [] => True
  | r :: records' =>
      (exists query error_msg, r = attempt_record k query error_msg) /\
      numbered (S k) records'
  end.

(** The line, once trimmed and put in lower case, is one of the words
    that end the question loop. *)
Definition is_sentinel (line : str) : bool :=
  existsb (str_eqb (lower_str (strip line))) sentinels.

(** The line holds nothing but white space. *)
Definition is_blank (line : str) : bool := negb (truthy (strip line)).


(** Showing a text never raises: no text is loaded from a URL or from a
    file, or loading always works. *)
Definition displays_quietly (w : World) : Prop :=
  forall text tr, display_markdown w text tr = Ok tt.

(** How a pass reaches the [except] clause: the last event is a failed
    execution of the bound query, or a generation call that did not
    produce a query, or the bound query was executed and the display of
    the answer raised. *)
Definition failed_with (w : World) (tr : trace) (e : exn) (bound : option str)
  : Prop :=
  (exists tr0 q, tr = tr0 ++ [DBQuery q (Raise e)] /\ bound = Some q) \/
  (exists tr0 p a, tr = tr0 ++ [LLMCall p a] /\ generated a = Raise e) \/
  (exists tr0 q rows analysis answer,
     tr = tr0 ++ DBQuery q (Ok rows) :: analysis /\ bound = Some q /\
     filter is_db analysis = [] /\ length analysis <= 1 /\
     display_markdown w answer tr = Raise e).

(** What holds each time the loop body starts, in a session that began
    with [cypher0] bound or not. *)
Definition pass_invariant (w : World) (cypher0 : option str) (l : locals)
  (tr : trace) : Prop :=
  1 <= attempt l <= max_attempts /\
  count is_llm tr + 3 <= 3 * attempt l /\
  (displays_quietly w ->
   count is_llm tr + 2 <= 2 * attempt l /\
   forallb is_failed_db (filter is_db tr) = true) /\
  numbered 1 (previous_attempts l) /\
  length (previous_attempts l) + 1 = attempt l /\
  (cypher l = None -> cypher0 = None /\ attempt l = 1 /\ tr = []).

(** What holds when the loop is left. *)
Definition session_report (w : World) (cypher0 : option str) (o : outcome)
  (l : locals) (tr : trace) : Prop :=
  count is_llm tr + 1 <= 3 * attempt l /\
  (displays_quietly w -> count is_llm tr <= 2 * attempt l) /\
  attempt l <= max_attempts /\
  numbered 1 (previous_attempts l) /\
  match o with
  | Answered q rows answer =>
      exists tr0 analysis,
        tr = tr0 ++ DBQuery q (Ok rows) :: analysis /\
        filter is_db analysis = [] /\ length analysis <= 1 /\
        display_markdown w answer tr = Ok tt /\
        (displays_quietly w -> forallb is_failed_db (filter is_db tr0) = true)
  | NoInitialQuery error_msg =>
      cypher0 = None /\ attempt l = 1 /\ previous_attempts l = [] /\
      exists p a e, tr = [LLMCall p a] /\ generated a = Raise e /\
                    error_msg = exn_str e
  | FinalFailure _ error_msg last =>
      (displays_quietly w -> forallb is_failed_db (filter is_db tr) = true) /\
      exists e, error_msg = exn_str e /\ failed_with w tr e last
  | LoopConditionFalse => False
  end.

(* ================================================================== *)
(** * Scenarios *)

Module Scenario.

Definition no_rendering : nat -> list row -> str := fun _ _ => [].
Definition no_repr : list str -> str := fun _ => [].

(** A response that wraps a query in a tagged fenced block. *)
Definition in_fence (query : string) : str :=
  fence ++ py "cypher" ++ [newline] ++ py query ++ [newline] ++ fence.

Definition is_repair_request (prompt : str) : bool :=
  contains (py "Please fix it.") prompt.

Definition question : str := py "Which books did Ann write?".
Definition schema : str := py "(:Author)-[:WROTE]->(:Book {title})".

(** The database rejects every statement; the service writes a plausible
    query when asked to generate and has nothing to offer as a repair. *)
Definition rejecting : World := {|
  llm := fun _ prompt =>
           if is_repair_request prompt then Ok (py "Sorry.")
           else Ok (in_fence "MATCH (b:Book) RETURN b.titel");
  db := fun _ _ => Raise (ServiceError (py "Unknown property: titel"));
  path_exists := fun _ _ => false;
  load := fun _ _ => Ok tt
|}.

(** The first query fails, the repair call returns a corrected query, and
    the next generation call returns yet another query. *)
Definition repairing : World := {|
  llm := fun tr prompt =>
           if is_repair_request prompt
           then Ok (in_fence "MATCH (b:Book) RETURN b.title")
           else match count is_db tr with
                | 0 => Ok (in_fence "MATCH (b:Book) RETURN b.titel")
                | _ => Ok (in_fence "MATCH (b:Book) RETURN b LIMIT 20")
                end;
  db := fun tr _ =>
          match count is_db tr with
          | 0 => Raise (ServiceError (py "Unknown property: titel"))
          | _ => Ok [[(py "b", py "Emma")]]
          end;
  path_exists := fun _ _ => false;
  load := fun _ _ => Ok tt
|}.

(** The service answers until the database has been queried once, and
    is down from then on. *)
Definition failing_later : World := {|
  llm := fun tr _ =>
           match count is_db tr with
           | 0 => Ok (in_fence "MATCH (b:Book) RETURN b.title")
           | _ => Raise (ServiceError (py "connection refused"))
           end;
  db := fun _ _ => Ok [[(py "b", py "Emma")]];
  path_exists := fun _ _ => false;
  load := fun _ _ => Ok tt
|}.

(** The service writes a query; the database finds nothing. *)
Definition finding_nothing : World := {|
  llm := fun _ _ => Ok (in_fence "MATCH (b:Book) RETURN b.title");
  db := fun _ _ => Ok [];
  path_exists := fun _ _ => false;
  load := fun _ _ => Ok tt
|}.

(** The service is down. *)
Definition unreachable : World := {|
  llm := fun _ _ => Raise (ServiceError (py "connection refused"));
  db := fun _ _ => Ok [];
  path_exists := fun _ _ => false;
  load := fun _ _ => Ok tt
|}.

Definition is_analysis_request (prompt : str) : bool :=
  contains (py "expert data analyst") prompt.

Definition link_error : str := py "HTTP Error 404: Not Found".

(** The database answers every statement and the service writes a query
    when asked to; its analysis begins with a link, which [Markdown]
    takes for a URL, and the link cannot be fetched. *)
Definition linking : World := {|
  llm := fun _ prompt =>
           if is_analysis_request prompt
           then Ok (py "https://neo4j.com/docs/ has the details.")
           else if is_repair_request prompt then Ok (py "Sorry.")
           else Ok (in_fence "MATCH (b:Book) RETURN b.title");
  db := fun _ _ => Ok [[(py "b", py "Emma")]];
  path_exists := fun _ _ => false;
  load := fun _ _ => Raise (ServiceError link_error)
|}.

(** The working directory holds a file README.md that is not text, and
    the analysis of every result is the name of that file. *)
Definition beside_a_readme : World := {|
  llm := fun _ prompt =>
           if is_analysis_request prompt then Ok (py "README.md")
           else Ok (in_fence "MATCH (b:Book) RETURN b.title");
  db := fun _ _ => Ok [[(py "b", py "Emma")]];
  path_exists := fun _ text => str_eqb text (py "README.md");
  load := fun _ _ => Raise (ServiceError (py "invalid start byte"))
|}.

(** A response without a fence: a match clause, a condition whose text
    literal holds a semicolon, and a return clause. *)
Definition semicolon_inside : str := py "MATCH (n) WHERE n.name = 'a;b' RETURN n".

(** A response without a fence whose prose holds the word matches. *)
Definition matches_in_prose : str :=
  py "This query matches all books: MATCH (b:Book) RETURN b.title".

(** A response without a fence whose query names a property returned. *)
Definition returned_in_condition : str :=
  py "MATCH (b:Book) WHERE b.returned = true RETURN b.title".

(** A response with two fenced blocks; the query is in the second. *)
Definition schema_then_query : str :=
  py "Schema: " ++ fence ++ py "(:Book)" ++ fence
  ++ py " Query: " ++ fence ++ py "cypher MATCH (b:Book) RETURN b" ++ fence.

Definition first_query : str := py "MATCH (b:Book) RETURN b.titel;".
Definition repaired_query : str := py "MATCH (b:Book) RETURN b.title;".
Definition second_query : str := py "MATCH (b:Book) RETURN b LIMIT 20;".
Definition db_error : str := py "Unknown property: titel".

Definition later_question : str := py "And which did Bob write?".
Definition generation_error : str :=
  py "Failed to generate valid Cypher query: connection refused".

End Scenario.

(* ================================================================== *)
(** * Facts about characters and strings *)

Section Characters.

Lemma all_ascii_complete (a : ascii) : In a all_ascii.
Proof.
  unfold all_ascii. rewrite <- (ascii_nat_embedding a).
  apply in_map, in_seq. pose proof (nat_ascii_bounded a). lia.
Qed.

Lemma forall_ascii (P : ascii -> bool) :
  forallb P all_ascii = true -> forall a, P a = true.
Proof.
  intros H a. rewrite forallb_forall in H. apply H, all_ascii_complete.
Qed.

Lemma forall_ascii2 (P : ascii -> ascii -> bool) :
  forallb (fun a => forallb (P a) all_ascii) all_ascii = true ->
  forall a b, P a b = true.
Proof.
  intros H a b.
  apply (forall_ascii (P a)). apply (forall_ascii _ H).
Qed.

Lemma space_not_word (a : ascii) : is_space a = true -> is_word a = false.
Proof.
  revert a.
  assert (H : forall a, implb (is_space a) (negb (is_word a)) = true)
    by (apply forall_ascii; vm_compute; reflexivity).
  intros a Ha. specialize (H a). rewrite Ha in H. simpl in H.
  destruct (is_word a); [discriminate | reflexivity].
Qed.

Lemma same_letter_word (a c : ascii) :
  is_letter c = true -> lower a = lower c -> is_word a = true.
Proof.
  revert a c.
  assert (H : forall a c,
             implb (is_letter c && Ascii.eqb (lower a) (lower c)) (is_word a) = true)
    by (apply forall_ascii2; vm_compute; reflexivity).
  intros a c Hc Hl. specialize (H a c).
  rewrite Hc, Hl, Ascii.eqb_refl in H. exact H.
Qed.

Lemma ci_eqb_eq (x c : ascii) : ci_eqb x c = true <-> lower x = lower c.
Proof. unfold ci_eqb. apply Ascii.eqb_eq. Qed.

End Characters.

Section Strings.

Lemma last_char_app (p : str) (x : ascii) : last_char (p ++ [x]) = Some x.
Proof. unfold last_char. rewrite rev_app_distr. reflexivity. Qed.

Lemma last_char_nil : last_char [] = None.
Proof. reflexivity. Qed.

Lemma last_char_cons (x : ascii) (p : str) :
  last_char (x :: p) = match last_char p with Some y => Some y | None => Some x end.
Proof.
  destruct p as [|y p'] using rev_ind; [reflexivity|].
  rewrite app_comm_cons, !last_char_app. reflexivity.
Qed.

Lemma last_char_app_ne (p q : str) : q <> [] -> last_char (p ++ q) = last_char q.
Proof.
  intros Hq. destruct q as [|y q'] using rev_ind; [congruence|].
  rewrite app_assoc, !last_char_app. reflexivity.
Qed.

Lemma prev_after_nil (b : option ascii) : prev_after b [] = b.
Proof. reflexivity. Qed.

Lemma prev_after_cons (b : option ascii) (x : ascii) (p : str) :
  prev_after b (x :: p) = prev_after (Some x) p.
Proof.
  unfold prev_after. rewrite last_char_cons.
  destruct (last_char p); reflexivity.
Qed.

Lemma prev_after_app (b : option ascii) (p q : str) :
  prev_after b (p ++ q) = prev_after (prev_after b p) q.
Proof.
  revert b. induction p as [|x p IH]; intros b; simpl.
  - reflexivity.
  - rewrite !prev_after_cons. apply IH.
Qed.

Lemma prev_after_none (p : str) : prev_after None p = last_char p.
Proof. unfold prev_after. destruct (last_char p); reflexivity. Qed.

Lemma drop_while_split (p : ascii -> bool) (s : str) :
  exists l, s = l ++ drop_while p s /\ forallb p l = true.
Proof.
  induction s as [|c s IH]; simpl.
  - exists []. split; reflexivity.
  - destruct (p c) eqn:Hc.
    + destruct IH as [l [E F]]. exists (c :: l). simpl. rewrite Hc, F, <- E.
      split; reflexivity.
    + exists []. split; reflexivity.
Qed.

Lemma drop_while_head (p : ascii -> bool) (s : str) (c : ascii) :
  first_char (drop_while p s) = Some c -> p c = false.
Proof.
  induction s as [|x s IH]; simpl; [discriminate|].
  destruct (p x) eqn:Hx; [exact IH|].
  simpl. intros E. injection E as <-. exact Hx.
Qed.

Lemma drop_while_id (p : ascii -> bool) (s : str) :
  (forall c, first_char s = Some c -> p c = false) -> drop_while p s = s.
Proof.
  destruct s as [|x s]; simpl; [reflexivity|].
  intros H. rewrite (H x eq_refl). reflexivity.
Qed.

Lemma strip_split (s : str) :
  exists l r, s = l ++ strip s ++ r /\
              forallb is_space l = true /\ forallb is_space r = true.
Proof.
  unfold strip, rstrip, lstrip.
  destruct (drop_while_split is_space s) as [l [El Fl]].
  destruct (drop_while_split is_space (rev (drop_while is_space s))) as [r [Er Fr]].
  exists l, (rev r). repeat split.
  - rewrite El at 1. f_equal.
    rewrite <- rev_app_distr, <- Er, rev_involutive. reflexivity.
  - exact Fl.
  - rewrite forallb_forall in *. intros x Hx. apply Fr. apply in_rev. exact Hx.
Qed.

Lemma strip_trimmed (s : str) : trimmed (strip s).
Proof.
  unfold strip, rstrip, lstrip. set (u := drop_while is_space s).
  assert (Hu : forall c, first_char u = Some c -> is_space c = false)
    by (intros c; apply drop_while_head).
  split.
  - intros c Hc.
    destruct (drop_while_split is_space (rev u)) as [r [Er Fr]].
    assert (E : u = rev (drop_while is_space (rev u)) ++ rev r).
    { rewrite <- rev_app_distr, <- Er, rev_involutive. reflexivity. }
    apply Hu. rewrite E.
    destruct (rev (drop_while is_space (rev u))); [discriminate | exact Hc].
  - intros c Hc. unfold last_char in Hc. rewrite rev_involutive in Hc.
    exact (drop_while_head _ _ _ Hc).
Qed.

Lemma trimmed_strip (s : str) : trimmed s -> strip s = s.
Proof.
  intros [Hf Hl]. unfold strip, rstrip, lstrip.
  rewrite (drop_while_id _ _ Hf).
  rewrite (drop_while_id is_space (rev s)); [apply rev_involutive | exact Hl].
Qed.

Lemma strip_idempotent (s : str) : strip (strip s) = strip s.
Proof. apply trimmed_strip, strip_trimmed. Qed.

Lemma trimmed_semicolon (s : str) : trimmed s -> trimmed (s ++ [semicolon]).
Proof.
  intros [Hf _]. split.
  - intros c Hc. destruct s as [|x s'].
    + simpl in Hc. injection Hc as <-. reflexivity.
    + apply Hf. exact Hc.
  - intros c Hc. rewrite last_char_app in Hc. injection Hc as <-. reflexivity.
Qed.

Lemma endswith_char_app (c : ascii) (s : str) : endswith_char c (s ++ [c]) = true.
Proof. unfold endswith_char. rewrite rev_app_distr. simpl. apply Ascii.eqb_refl. Qed.

Lemma endswith_char_last (c : ascii) (s : str) :
  endswith_char c s = true <-> last_char s = Some c.
Proof.
  unfold endswith_char, last_char. destruct (rev s) as [|x t]; simpl.
  - split; discriminate.
  - rewrite Ascii.eqb_eq. split; congruence.
Qed.

End Strings.

(* ================================================================== *)
(** * Facts about matching *)

Section Matching.

Lemma starts_ci_split (w s : str) :
  starts_ci w s = true ->
  s = firstn (length w) s ++ skipn (length w) s /\
  same_letters (firstn (length w) s) w.
Proof.
  split; [symmetry; apply firstn_skipn|].
  revert s H. induction w as [|c w IH]; intros s H.
  - reflexivity.
  - destruct s as [|x s]; simpl in H; [discriminate|].
    apply andb_true_iff in H. destruct H as [Hx Hs].
    apply Ascii.eqb_eq in Hx. unfold same_letters, lower_str. simpl.
    rewrite Hx. f_equal. apply IH, Hs.
Qed.

Lemma starts_ci_ex (w s : str) :
  starts_ci w s = true ->
  exists x q, s = x ++ q /\ same_letters x w /\
              firstn (length w) s = x /\ skipn (length w) s = q.
Proof.
  intros H. destruct (starts_ci_split _ _ H) as [E S].
  exists (firstn (length w) s), (skipn (length w) s). auto.
Qed.

Lemma same_letters_length (x w : str) : same_letters x w -> length x = length w.
Proof.
  unfold same_letters, lower_str. intros H.
  rewrite <- (length_map lower x), H. apply length_map.
Qed.

Lemma same_letters_starts (x w q : str) :
  same_letters x w -> starts_ci w (x ++ q) = true.
Proof.
  revert x. induction w as [|c w IH]; intros x H.
  - reflexivity.
  - destruct x as [|a x]; [discriminate|].
    unfold same_letters, lower_str in H. simpl in H. injection H as Ha Hx.
    simpl. rewrite Ha, Ascii.eqb_refl. apply IH, Hx.
Qed.

Lemma same_letters_cut (x w q : str) :
  same_letters x w ->
  firstn (length w) (x ++ q) = x /\ skipn (length w) (x ++ q) = q.
Proof.
  intros H. rewrite <- (same_letters_length _ _ H). split.
  - rewrite firstn_app, Nat.sub_diag, firstn_all. simpl. apply app_nil_r.
  - rewrite skipn_app, Nat.sub_diag, skipn_all. reflexivity.
Qed.

Lemma same_letters_words (x w : str) :
  forallb is_letter w = true -> same_letters x w -> forallb is_word x = true.
Proof.
  revert x. induction w as [|c w IH]; intros x Hw H.
  - destruct x; [reflexivity | discriminate].
  - destruct x as [|a x]; [discriminate|].
    unfold same_letters, lower_str in H. simpl in H, Hw. injection H as Ha Hx.
    apply andb_true_iff in Hw. destruct Hw as [Hc Hw].
    simpl. rewrite (same_letter_word a c Hc Ha). apply IH; assumption.
Qed.

Lemma words_first (x q : str) :
  forallb is_word x = true -> x <> [] -> word_opt (hd_error (x ++ q)) = true.
Proof.
  destruct x as [|a x]; [congruence|]. simpl. intros H _.
  apply andb_true_iff in H. apply H.
Qed.

Lemma words_last (x : str) (b : option ascii) :
  forallb is_word x = true -> x <> [] -> word_opt (prev_after b x) = true.
Proof.
  intros H Hx. destruct x as [|a x] using rev_ind; [congruence|].
  unfold prev_after. rewrite last_char_app. simpl.
  rewrite forallb_app in H. apply andb_true_iff in H. destruct H as [_ H].
  simpl in H. apply andb_true_iff in H. apply H.
Qed.

(** A run of literals matches exactly the texts with the same letters. *)
Lemma run_lits (w : str) (b : option ascii) (s : str) (g : option str) :
  run (lits w) (MState b s g) =
  if starts_ci w s
  then [MState (prev_after b (firstn (length w) s)) (skipn (length w) s) g]
  else [].
Proof.
  revert b s. induction w as [|c w IH]; intros b s.
  - reflexivity.
  - destruct s as [|x s]; [reflexivity|].
    cbn [lits run rest grp starts_ci length firstn skipn]. unfold ci_eqb.
    destruct (Ascii.eqb (lower x) (lower c)); [|reflexivity].
    cbn [flat_map andb]. rewrite IH, app_nil_r, prev_after_cons. reflexivity.
Qed.

Lemma run_lits_same (w x q : str) (b : option ascii) (g : option str) :
  same_letters x w ->
  run (lits w) (MState b (x ++ q) g) = [MState (prev_after b x) q g].
Proof.
  intros H. rewrite run_lits, (same_letters_starts _ _ q H).
  destruct (same_letters_cut _ _ q H) as [-> ->]. reflexivity.
Qed.

Lemma run_seq (r1 r2 : regex) (st : mstate) :
  run (RSeq r1 r2) st = flat_map (run r2) (run r1 st).
Proof. reflexivity. Qed.

Lemma run_alt (r1 r2 : regex) (st : mstate) :
  run (RAlt r1 r2) st = run r1 st ++ run r2 st.
Proof. reflexivity. Qed.

Lemma run_opt (r : regex) (st : mstate) : run (ROpt r) st = run r st ++ [st].
Proof. reflexivity. Qed.

Lemma run_noncap (r : regex) (st : mstate) : run (RNonCap r) st = run r st.
Proof. reflexivity. Qed.

Lemma run_star (c : cclass) (b : option ascii) (s : str) (g : option str) :
  run (RStar c) (MState b s g) = rev (spans c b s g).
Proof. reflexivity. Qed.

Lemma run_lazy (c : cclass) (b : option ascii) (s : str) (g : option str) :
  run (RLazy c) (MState b s g) = spans c b s g.
Proof. reflexivity. Qed.

Lemma run_group (r : regex) (st : mstate) :
  run (RGroup r) st =
  map (fun st' => MState (prev st') (rest st')
                         (Some (consumed (rest st) (rest st'))))
      (run r st).
Proof. reflexivity. Qed.

Lemma run_end (b : option ascii) (s : str) (g : option str) :
  run REnd (MState b s g) = match s with [] => [MState b s g] | _ :: _ => [] end.
Proof. reflexivity. Qed.

Lemma flat_map_map {A B C} (f : B -> list C) (h : A -> B) (l : list A) :
  flat_map f (map h l) = flat_map (fun x => f (h x)) l.
Proof.
  induction l as [|a l IH]; simpl; [reflexivity | rewrite IH; reflexivity].
Qed.

Lemma flat_map_nonempty {A B} (f : A -> list B) (l : list A) :
  flat_map f l <> [] -> exists x, In x l /\ f x <> [].
Proof.
  induction l as [|a l IH]; simpl; [congruence|].
  intros H. destruct (f a) eqn:E.
  - destruct (IH H) as [x [Hx Hf]]. exists x. auto.
  - exists a. split; [auto | congruence].
Qed.

(** ** Searching *)

Lemma search_from_none (r : regex) (b : option ascii) (s : str) :
  search_from r b s = None <->
  forall p q, s = p ++ q -> run r (MState (prev_after b p) q None) = [].
Proof.
  revert b. induction s as [|x s IH]; intros b.
  - simpl. split.
    + intros H p q E. destruct p; [|discriminate]. destruct q; [|discriminate].
      rewrite prev_after_nil.
      destruct (run r (MState b [] None)); [reflexivity | discriminate].
    + intros H. pose proof (H [] [] eq_refl) as H0.
      rewrite prev_after_nil in H0. rewrite H0. reflexivity.
  - cbn [search_from]. split.
    + intros H p q E.
      destruct (run r (MState b (x :: s) None)) eqn:R; [|discriminate].
      destruct (search_from r (Some x) s) as [[i st]|] eqn:S; [discriminate|].
      destruct p as [|y p].
      * simpl in E. subst q. exact R.
      * injection E as <- E. rewrite prev_after_cons.
        apply (proj1 (IH (Some x)) S p q E).
    + intros H. pose proof (H [] (x :: s) eq_refl) as H0.
      rewrite prev_after_nil in H0. rewrite H0.
      assert (S : search_from r (Some x) s = None).
      { apply IH. intros p q E. rewrite <- (prev_after_cons b).
        apply H. simpl. rewrite E. reflexivity. }
      rewrite S. reflexivity.
Qed.

Lemma search_from_first (r : regex) (b : option ascii) (pre rest0 : str)
  (st : mstate) (l : list mstate) :
  (forall a c, pre = a ++ c -> c <> [] ->
               run r (MState (prev_after b a) (c ++ rest0) None) = []) ->
  run r (MState (prev_after b pre) rest0 None) = st :: l ->
  search_from r b (pre ++ rest0) = Some (length pre, st).
Proof.
  revert b. induction pre as [|x pre IH]; intros b Hbefore Hhere.
  - rewrite prev_after_nil in Hhere.
    destruct rest0; simpl; rewrite Hhere; reflexivity.
  - cbn [app search_from length].
    assert (H0 : run r (MState b (x :: pre ++ rest0) None) = []).
    { apply (Hbefore [] (x :: pre) eq_refl). discriminate. }
    rewrite H0, (IH (Some x)).
    + reflexivity.
    + intros a c E Hc. rewrite <- (prev_after_cons b). apply Hbefore; [|exact Hc].
      simpl. rewrite E. reflexivity.
    + rewrite <- (prev_after_cons b). exact Hhere.
Qed.

Lemma search_from_some (r : regex) (b : option ascii) (s : str)
  (i : nat) (st : mstate) :
  search_from r b s = Some (i, st) ->
  exists p q l, s = p ++ q /\ length p = i /\
                run r (MState (prev_after b p) q None) = st :: l.
Proof.
  revert b i. induction s as [|x s IH]; intros b i S.
  - simpl in S. destruct (run r (MState b [] None)) as [|st0 l] eqn:R; [discriminate|].
    injection S as <- <-. exists [], [], l. auto.
  - cbn [search_from] in S.
    destruct (run r (MState b (x :: s) None)) as [|st0 l] eqn:R.
    + destruct (search_from r (Some x) s) as [[j st']|] eqn:S'; [|discriminate].
      injection S as <- <-. destruct (IH _ _ S') as [p [q [l [E [L N]]]]].
      exists (x :: p), q, l. repeat split.
      * simpl. rewrite E. reflexivity.
      * simpl. rewrite L. reflexivity.
      * rewrite prev_after_cons. exact N.
    + injection S as <- <-. exists [], (x :: s), l. auto.
Qed.

Lemma found_iff (r : regex) (s : str) :
  found r s = true <->
  exists p q, s = p ++ q /\ run r (MState (last_char p) q None) <> [].
Proof.
  unfold found, re_search. split.
  - intros H. destruct (search_from r None s) as [[i st]|] eqn:S; [|discriminate].
    destruct (search_from_some _ _ _ _ _ S) as [p [q [l [E [_ N]]]]].
    exists p, q. split; [exact E|]. rewrite <- prev_after_none, N. discriminate.
  - intros [p [q [E N]]].
    destruct (search_from r None s) as [[i st]|] eqn:S; [reflexivity|].
    exfalso. apply N. rewrite <- prev_after_none.
    apply (proj1 (search_from_none r None s) S p q E).
Qed.

End Matching.

(* ================================================================== *)
(** * The validator *)

Section Validator.

Lemma destructive_patterns_eq :
  destructive_patterns = map word_pattern denylist ++ [detach_delete_pattern].
Proof. reflexivity. Qed.

Lemma denylist_letters (kw : string) :
  In kw denylist -> forallb is_letter (py kw) = true /\ py kw <> [].
Proof.
  intros H. repeat (destruct H as [<- | H]; [split; [reflexivity | discriminate]|]).
  destruct H.
Qed.

Lemma run_word_pattern (w : string) (b : option ascii) (s : str) (g : option str) :
  run (word_pattern w) (MState b s g) <> [] <->
  at_boundary b s = true /\ starts_ci (py w) s = true /\
  at_boundary (prev_after b (firstn (length (py w)) s))
              (skipn (length (py w)) s) = true.
Proof.
  unfold word_pattern. cbn [run prev rest].
  destruct (at_boundary b s); cbn [flat_map];
    [|split; [congruence | intros [H _]; discriminate]].
  rewrite app_nil_r, run_lits.
  destruct (starts_ci (py w) s); cbn [flat_map];
    [|split; [congruence | intros [_ [H _]]; discriminate]].
  cbn [run prev rest]. rewrite app_nil_r.
  destruct (at_boundary _ _); split; try congruence; try discriminate; auto.
  intros [_ [_ H]]. discriminate.
Qed.

Lemma xorb_true_l' (a : bool) : xorb a true = true -> a = false.
Proof. destruct a; [discriminate | reflexivity]. Qed.

Lemma xorb_true_r' (a : bool) : xorb true a = true -> a = false.
Proof. destruct a; [discriminate | reflexivity]. Qed.

(** [re.search(r'\bKW\b', s, re.IGNORECASE)] finds something exactly when
    the keyword stands in [s] as a whole word, in some letter case. *)
Lemma found_word_pattern (w : string) (s : str) :
  forallb is_letter (py w) = true -> py w <> [] ->
  (found (word_pattern w) s = true <-> contains_keyword (py w) s).
Proof.
  intros Hw Hne. rewrite found_iff. split.
  - intros [p [q [E N]]]. apply run_word_pattern in N. destruct N as [B1 [St B2]].
    destruct (starts_ci_ex _ _ St) as [x [q' [Eq [Sx [Fx Kx]]]]].
    rewrite Fx, Kx in B2. clear Fx Kx.
    assert (Wx : forallb is_word x = true) by (eapply same_letters_words; eauto).
    assert (Nx : x <> []).
    { intros Ex. apply same_letters_length in Sx. rewrite Ex in Sx.
      destruct (py w); [congruence | discriminate]. }
    exists p, x, q'. split; [rewrite E, Eq; reflexivity|]. split; [exact Sx|].
    split.
    + unfold at_boundary in B1. rewrite Eq in B1.
      rewrite (words_first x q' Wx Nx) in B1. apply xorb_true_l', B1.
    + unfold at_boundary in B2. rewrite (words_last x _ Wx Nx) in B2.
      apply xorb_true_r', B2.
  - intros [p [x [q [E [Sx [W1 W2]]]]]].
    assert (Wx : forallb is_word x = true) by (eapply same_letters_words; eauto).
    assert (Nx : x <> []).
    { intros Ex. apply same_letters_length in Sx. rewrite Ex in Sx.
      destruct (py w); [congruence | discriminate]. }
    exists p, (x ++ q). split; [exact E|]. apply run_word_pattern.
    destruct (same_letters_cut _ _ q Sx) as [-> ->]. repeat split.
    + unfold at_boundary. rewrite W1. rewrite (words_first x q Wx Nx). reflexivity.
    + apply same_letters_starts, Sx.
    + unfold at_boundary. rewrite (words_last x _ Wx Nx).
      unfold first_char in W2. rewrite W2. reflexivity.
Qed.

Lemma in_spans (c : cclass) (b : option ascii) (t : str) (g : option str)
  (st : mstate) :
  In st (spans c b t g) ->
  exists ws, t = ws ++ rest st /\ forallb (in_class c) ws = true /\
             st = MState (prev_after b ws) (rest st) g.
Proof.
  revert b. induction t as [|x t IH]; intros b H.
  - simpl in H. destruct H as [<- | []]. exists []. auto.
  - cbn [spans] in H. destruct H as [<- | H].
    + exists []. auto.
    + destruct (in_class c x) eqn:Hx; [|destruct H].
      destruct (IH _ H) as [ws [E [F S]]].
      exists (x :: ws). simpl. rewrite Hx, F, prev_after_cons, <- E.
      repeat split. exact S.
Qed.

Lemma in_tl_spans (c : cclass) (b : option ascii) (t : str) (g : option str)
  (st : mstate) :
  In st (tl (spans c b t g)) ->
  exists ws, ws <> [] /\ t = ws ++ rest st /\ forallb (in_class c) ws = true /\
             st = MState (prev_after b ws) (rest st) g.
Proof.
  destruct t as [|x t]; simpl; [intros []|].
  destruct (in_class c x) eqn:Hx; [|intros []].
  intros H. destruct (in_spans _ _ _ _ _ H) as [ws [E [F S]]].
  exists (x :: ws). simpl. rewrite Hx, F, prev_after_cons, <- E.
  repeat split; [discriminate | exact S].
Qed.

Lemma found_detach_delete (s : str) :
  found detach_delete_pattern s = true -> contains_detach_delete s.
Proof.
  rewrite found_iff. intros [p [q [E N]]].
  unfold detach_delete_pattern in N. cbn [run prev rest] in N.
  destruct (at_boundary (last_char p) q) eqn:B1; cbn [flat_map] in N; [|congruence].
  rewrite app_nil_r, run_lits in N.
  destruct (starts_ci (py "DETACH") q) eqn:St; cbn [flat_map] in N; [|congruence].
  rewrite app_nil_r in N.
  destruct (starts_ci_ex _ _ St) as [x [q1 [Eq [Sx [Fx Kx]]]]].
  rewrite Fx, Kx in N. clear Fx Kx.
  apply flat_map_nonempty in N. destruct N as [st [Hin N]].
  cbn [prev rest grp] in Hin. apply in_rev in Hin.
  destruct (in_tl_spans _ _ _ _ _ Hin) as [ws [Nws [Ews [Fws Est]]]].
  rewrite Est in N. rewrite run_lits in N.
  destruct (starts_ci (py "DELETE") (rest st)) eqn:St2; cbn [flat_map] in N; [|congruence].
  rewrite app_nil_r in N. cbn [run prev rest] in N.
  destruct (starts_ci_ex _ _ St2) as [y [q2 [Eq2 [Sy [Fy Ky]]]]].
  rewrite Fy, Ky in N. clear Fy Ky.
  destruct (at_boundary (prev_after (prev_after (prev_after (last_char p) x) ws) y) q2)
    eqn:B2; [|congruence].
  assert (Wx : forallb is_word x = true)
    by (eapply same_letters_words; [|exact Sx]; reflexivity).
  assert (Wy : forallb is_word y = true)
    by (eapply same_letters_words; [|exact Sy]; reflexivity).
  assert (Nx : x <> []).
  { intros Ex. apply same_letters_length in Sx. rewrite Ex in Sx. discriminate. }
  assert (Ny : y <> []).
  { intros Ey. apply same_letters_length in Sy. rewrite Ey in Sy. discriminate. }
  exists p, x, ws, y, q2. repeat split; auto.
  - rewrite E, Eq, Ews, Eq2. reflexivity.
  - unfold at_boundary in B1. rewrite Eq in B1.
    rewrite (words_first x q1 Wx Nx) in B1. apply xorb_true_l', B1.
  - unfold at_boundary in B2. rewrite (words_last y _ Wy Ny) in B2.
    apply xorb_true_r', B2.
Qed.

Lemma spaces_last_not_word (ws : str) :
  forallb is_space ws = true -> word_opt (last_char ws) = false.
Proof.
  destruct ws as [|x ws] using rev_ind; [reflexivity|].
  rewrite last_char_app, forallb_app. intros H.
  apply andb_true_iff in H. destruct H as [_ H]. simpl in H.
  apply andb_true_iff in H. simpl. apply space_not_word, H.
Qed.

Lemma spaces_first_not_word (ws : str) :
  forallb is_space ws = true -> word_opt (first_char ws) = false.
Proof.
  destruct ws as [|x ws]; [reflexivity|]. simpl. intros H.
  apply andb_true_iff in H. apply space_not_word, H.
Qed.

(** The two-word entry of the list adds nothing: it contains DELETE. *)
Lemma detach_delete_contains_delete (s : str) :
  contains_detach_delete s -> contains_keyword (py "DELETE") s.
Proof.
  intros [p [x [ws [y [q [E [Sx [Nws [Fws [Sy [W1 W2]]]]]]]]]]].
  exists (p ++ x ++ ws), y, q. split; [rewrite E, <- !app_assoc; reflexivity|].
  split; [exact Sy|]. split; [|exact W2].
  rewrite app_assoc, (last_char_app_ne _ ws Nws).
  apply spaces_last_not_word, Fws.
Qed.

Lemma find_existsb {A} (f : A -> bool) (l : list A) :
  find f l = None <-> existsb f l = false.
Proof.
  induction l as [|a l IH]; simpl; [tauto|].
  destruct (f a); simpl; [split; discriminate | exact IH].
Qed.

Lemma denylisted_found (s : str) :
  denylisted s <-> existsb (fun p => found p s) destructive_patterns = true.
Proof.
  rewrite existsb_exists, destructive_patterns_eq. split.
  - intros [[kw [Hin Hc]] | Hd].
    + exists (word_pattern kw). split.
      * apply in_or_app. left. apply in_map, Hin.
      * destruct (denylist_letters kw Hin) as [L N].
        apply found_word_pattern; assumption.
    + exists (word_pattern "DELETE"). split.
      * apply in_or_app. left. apply in_map. simpl. auto.
      * apply found_word_pattern; [reflexivity | discriminate |].
        apply detach_delete_contains_delete, Hd.
  - intros [p [Hin Hf]]. apply in_app_or in Hin. destruct Hin as [Hin | Hin].
    + apply in_map_iff in Hin. destruct Hin as [kw [<- Hin]].
      destruct (denylist_letters kw Hin) as [L N].
      left. exists kw. split; [exact Hin|].
      apply found_word_pattern; assumption.
    + destruct Hin as [<- | []]. right. apply found_detach_delete, Hf.
Qed.

Lemma validate_ok (s : str) :
  ~ denylisted s -> validate_cypher_query s = Ok (terminated (strip s)).
Proof.
  intros H. unfold validate_cypher_query, terminated.
  assert (F : find (fun p => found p s) destructive_patterns = None).
  { apply find_existsb. rewrite denylisted_found in H.
    destruct (existsb _ _); [congruence | reflexivity]. }
  rewrite F. destruct (endswith_char semicolon (strip s)); reflexivity.
Qed.

Lemma validate_blocked (s : str) :
  denylisted s ->
  exists pattern, In pattern destructive_patterns /\ found pattern s = true /\
    validate_cypher_query s = Raise (ValueError (blocked_message pattern)).
Proof.
  intros H. unfold validate_cypher_query.
  destruct (find (fun p => found p s) destructive_patterns) as [p|] eqn:F.
  - apply find_some in F. destruct F as [Hin Hf]. exists p. auto.
  - apply find_existsb in F. apply denylisted_found in H. congruence.
Qed.

Lemma validate_ok_inv (s v : str) :
  validate_cypher_query s = Ok v -> ~ denylisted s /\ v = terminated (strip s).
Proof.
  intros H. assert (N : ~ denylisted s).
  { intros D. destruct (validate_blocked s D) as [p [_ [_ E]]]. congruence. }
  split; [exact N|]. rewrite (validate_ok s N) in H. congruence.
Qed.

(** ** What validation leaves behind *)

Lemma whole_word_pad (l p q r : str) :
  forallb is_space l = true -> forallb is_space r = true ->
  whole_word p q -> whole_word (l ++ p) (q ++ r).
Proof.
  intros Fl Fr [W1 W2]. split.
  - destruct p as [|c p].
    + rewrite app_nil_r. apply spaces_last_not_word, Fl.
    + rewrite last_char_app_ne by discriminate. exact W1.
  - destruct q as [|c q].
    + apply spaces_first_not_word, Fr.
    + exact W2.
Qed.

Lemma denylisted_pad (l t r : str) :
  forallb is_space l = true -> forallb is_space r = true ->
  denylisted t -> denylisted (l ++ t ++ r).
Proof.
  intros Fl Fr [[kw [Hin [p [x [q [E [Sx W]]]]]]] | D].
  - left. exists kw. split; [exact Hin|].
    exists (l ++ p), x, (q ++ r). split; [rewrite E, <- !app_assoc; reflexivity|].
    split; [exact Sx|]. apply whole_word_pad; assumption.
  - right. destruct D as [p [x [ws [y [q [E [Sx [Nws [Fws [Sy W]]]]]]]]]].
    exists (l ++ p), x, ws, y, (q ++ r).
    split; [rewrite E, <- !app_assoc; reflexivity|].
    repeat (split; [assumption|]). apply whole_word_pad; assumption.
Qed.

Lemma denylisted_strip (s : str) : denylisted (strip s) -> denylisted s.
Proof.
  intros D. destruct (strip_split s) as [l [r [E [Fl Fr]]]].
  rewrite E. apply denylisted_pad; assumption.
Qed.

Lemma app_tail_cases (t u q : str) (c : ascii) :
  t ++ [c] = u ++ q ->
  (q = [] /\ u = t ++ [c]) \/ (exists q', q = q' ++ [c] /\ t = u ++ q').
Proof.
  intros E. destruct q as [|a q'] using rev_ind.
  - left. rewrite app_nil_r in E. auto.
  - right. rewrite app_assoc in E. apply app_inj_tail in E.
    destruct E as [E <-]. exists q'. auto.
Qed.

Lemma words_not_semicolon (x u : str) :
  forallb is_word x = true -> x <> [] -> forall t, t ++ [semicolon] <> u ++ x.
Proof.
  intros Wx Nx t E. destruct x as [|a x'] using rev_ind; [congruence|].
  rewrite app_assoc in E. apply app_inj_tail in E. destruct E as [_ <-].
  rewrite forallb_app in Wx. apply andb_true_iff in Wx.
  destruct Wx as [_ Wx]. discriminate.
Qed.

Lemma whole_word_cut (p q : str) (c : ascii) :
  whole_word p (q ++ [c]) -> is_word c = false -> whole_word p q.
Proof.
  intros [W1 W2] Hc. split; [exact W1|].
  destruct q as [|a q]; [reflexivity | exact W2].
Qed.

Lemma denylisted_semicolon (t : str) :
  denylisted (t ++ [semicolon]) -> denylisted t.
Proof.
  intros [[kw [Hin [p [x [q [E [Sx W]]]]]]] | D].
  - destruct (denylist_letters kw Hin) as [L N].
    assert (Wx : forallb is_word x = true) by (eapply same_letters_words; eauto).
    assert (Nx : x <> []).
    { intros Ex. apply same_letters_length in Sx. rewrite Ex in Sx.
      destruct (py kw); [congruence | discriminate]. }
    rewrite app_assoc in E. destruct (app_tail_cases _ _ _ _ E) as [[-> E'] | [q' [-> E']]].
    + exfalso. symmetry in E'. revert E'. apply words_not_semicolon; assumption.
    + left. exists kw. split; [exact Hin|]. exists p, x, q'.
      split; [rewrite E', <- app_assoc; reflexivity|]. split; [exact Sx|].
      apply (whole_word_cut _ _ semicolon W). reflexivity.
  - destruct D as [p [x [ws [y [q [E [Sx [Nws [Fws [Sy W]]]]]]]]]].
    assert (Wy : forallb is_word y = true)
      by (eapply same_letters_words; [|exact Sy]; reflexivity).
    assert (Ny : y <> []).
    { intros Ey. apply same_letters_length in Sy. rewrite Ey in Sy. discriminate. }
    replace (p ++ x ++ ws ++ y ++ q) with ((p ++ x ++ ws ++ y) ++ q) in E
      by (rewrite <- !app_assoc; reflexivity).
    destruct (app_tail_cases _ _ _ _ E) as [[-> E'] | [q' [-> E']]].
    + exfalso. symmetry in E'. revert E'.
      replace (p ++ x ++ ws ++ y) with ((p ++ x ++ ws) ++ y)
        by (rewrite <- !app_assoc; reflexivity).
      apply words_not_semicolon; assumption.
    + right. exists p, x, ws, y, q'.
      split; [rewrite E', <- !app_assoc; reflexivity|].
      repeat (split; [assumption|]).
      apply (whole_word_cut _ _ semicolon W). reflexivity.
Qed.

Lemma terminated_ends (q : str) : endswith_char semicolon (terminated q) = true.
Proof.
  unfold terminated. destruct (endswith_char semicolon q) eqn:E; [exact E|].
  apply endswith_char_app.
Qed.

Lemma terminated_trimmed (q : str) : trimmed q -> trimmed (terminated q).
Proof.
  unfold terminated. destruct (endswith_char semicolon q); [auto|].
  apply trimmed_semicolon.
Qed.

Lemma terminated_not_denylisted (q : str) :
  ~ denylisted q -> ~ denylisted (terminated q).
Proof.
  unfold terminated. destruct (endswith_char semicolon q); [auto|].
  intros N D. apply N, denylisted_semicolon, D.
Qed.

(** A query that passed validation is free of the keywords, carries no
    white space around it and ends with the delimiter. *)
Lemma validated_shape (s v : str) :
  validate_cypher_query s = Ok v ->
  ~ denylisted v /\ trimmed v /\ endswith_char semicolon v = true.
Proof.
  intros H. apply validate_ok_inv in H. destruct H as [N ->]. repeat split.
  - apply terminated_not_denylisted. intros D. apply N, denylisted_strip, D.
  - apply (terminated_trimmed _ (strip_trimmed s)).
  - apply (terminated_trimmed _ (strip_trimmed s)).
  - apply terminated_ends.
Qed.

Lemma validate_fixed (v : str) :
  ~ denylisted v -> trimmed v -> endswith_char semicolon v = true ->
  validate_cypher_query v = Ok v.
Proof.
  intros N T E. rewrite (validate_ok v N), (trimmed_strip v T).
  unfold terminated. rewrite E. reflexivity.
Qed.

End Validator.

(* ================================================================== *)
(** * The extractor *)

Section Extractor.

Lemma starts_ci_exact (w t : str) :
  forallb caseless w = true -> starts_ci w t = starts_with w t.
Proof.
  revert t. induction w as [|c w IH]; intros t H; [reflexivity|].
  simpl in H. apply andb_true_iff in H. destruct H as [Hc Hw].
  destruct t as [|x t]; [reflexivity|]. simpl.
  rewrite (IH t Hw). f_equal.
  unfold caseless in Hc. rewrite forallb_forall in Hc.
  specialize (Hc x (all_ascii_complete x)). apply eqb_prop in Hc. exact Hc.
Qed.

Lemma contains_false (sub p q : str) :
  contains sub (p ++ q) = false -> starts_with sub q = false.
Proof.
  induction p as [|x p IH]; simpl.
  - destruct q; simpl; intros H; apply orb_false_iff in H; apply H.
  - intros H. apply orb_false_iff in H. apply IH, H.
Qed.

Lemma consumed_app (x t : str) : consumed (x ++ t) t = x.
Proof.
  unfold consumed. rewrite length_app, Nat.add_sub.
  rewrite firstn_app, Nat.sub_diag, firstn_all. simpl. apply app_nil_r.
Qed.

Lemma re_findall_head (r : regex) (s : str) (i : nat) (st : mstate) :
  search_from r None s = Some (i, st) ->
  exists l, re_findall r s = group1 st :: l.
Proof.
  intros H. unfold re_findall. cbn [findall_from]. rewrite H. eauto.
Qed.

Lemma re_findall_nil (r : regex) (s : str) :
  search_from r None s = None -> re_findall r s = [].
Proof.
  intros H. unfold re_findall. cbn [findall_from]. rewrite H. reflexivity.
Qed.

(** A lazy [.*?] followed by [f]: the first position where [f] succeeds. *)
Lemma spans_any_first (f : mstate -> list mstate) (b : option ascii)
  (mid rest0 : str) (g : option str) (st : mstate) (l : list mstate) :
  (forall a c, mid = a ++ c -> c <> [] ->
               f (MState (prev_after b a) (c ++ rest0) g) = []) ->
  f (MState (prev_after b mid) rest0 g) = st :: l ->
  exists l', flat_map f (spans CAny b (mid ++ rest0) g) = st :: l'.
Proof.
  revert b. induction mid as [|x mid IH]; intros b Hbefore Hhere.
  - rewrite prev_after_nil in Hhere. simpl.
    destruct rest0; simpl; rewrite Hhere; simpl; eauto.
  - cbn [app spans in_class flat_map].
    assert (H0 : f (MState b (x :: mid ++ rest0) g) = []).
    { apply (Hbefore [] (x :: mid) eq_refl). discriminate. }
    rewrite H0. simpl. apply IH.
    + intros a c E Hc. rewrite <- (prev_after_cons b). apply Hbefore; [|exact Hc].
      simpl. rewrite E. reflexivity.
    + rewrite <- (prev_after_cons b). exact Hhere.
Qed.

(** A greedy [\s*]: the longest run of white space is tried first. *)
Lemma spans_space_last (b : option ascii) (ws t : str) (g : option str) :
  forallb is_space ws = true ->
  (forall c, first_char t = Some c -> is_space c = false) ->
  exists l, spans CSpace b (ws ++ t) g = l ++ [MState (prev_after b ws) t g].
Proof.
  revert b. induction ws as [|x ws IH]; intros b F Ht.
  - exists []. destruct t as [|c t]; [reflexivity|].
    simpl. rewrite (Ht c eq_refl). reflexivity.
  - simpl in F. apply andb_true_iff in F. destruct F as [Fx F].
    destruct (IH (Some x) F Ht) as [l E].
    exists (MState b (x :: ws ++ t) g :: l).
    cbn [app spans in_class]. rewrite Fx, E, prev_after_cons. reflexivity.
Qed.

Lemma lstrip_lstrip (s : str) : lstrip (lstrip s) = lstrip s.
Proof. apply drop_while_id. intros c. apply drop_while_head. Qed.

Lemma strip_lstrip (s : str) : strip (lstrip s) = strip s.
Proof. unfold strip. rewrite lstrip_lstrip. reflexivity. Qed.

Lemma earliestb_sound (P : str -> bool) (pre rest0 : str) :
  earliestb P pre rest0 = true -> earliest P pre rest0.
Proof.
  unfold earliestb. intros H. apply andb_true_iff in H. destruct H as [H1 H2].
  split; [exact H1|]. intros a c E Hc. rewrite forallb_forall in H2.
  assert (L : length a < length pre).
  { rewrite E, length_app. destruct c; [congruence | simpl; lia]. }
  specialize (H2 (length a)). rewrite in_seq in H2.
  assert (K : skipn (length a) pre = c).
  { rewrite E, skipn_app, Nat.sub_diag, skipn_all. reflexivity. }
  rewrite K in H2. apply negb_true_iff. apply H2. lia.
Qed.

(** ** The fenced block *)

(** The part of the pattern after the optional tag: white space, the
    group, the closing fence. *)
Lemma run_fence_body (b : option ascii) (x post : str) :
  (forall a c, x = a ++ c -> c <> [] ->
               starts_with fence (c ++ fence ++ post) = false) ->
  exists st l,
    run (RSeq (RStar CSpace) (RSeq (RGroup (RLazy CAny)) (lits fence)))
        (MState b (x ++ fence ++ post) None) = st :: l /\
    group1 st = lstrip x.
Proof.
  intros Hx.
  destruct (drop_while_split is_space x) as [ws [E F]]. fold (lstrip x) in E.
  assert (Hnext : forall c, first_char (lstrip x ++ fence ++ post) = Some c ->
                            is_space c = false).
  { intros c Hc. destruct (lstrip x) as [|y x'] eqn:L.
    - simpl in Hc. injection Hc as <-. reflexivity.
    - apply (drop_while_head is_space x). fold (lstrip x). rewrite L. exact Hc. }
  destruct (spans_space_last b ws (lstrip x ++ fence ++ post) None F Hnext) as [l1 E1].
  rewrite run_seq, run_star.
  replace (x ++ fence ++ post) with (ws ++ lstrip x ++ fence ++ post)
    by (rewrite E at 2; rewrite <- app_assoc; reflexivity).
  rewrite E1, rev_app_distr. cbn [rev app flat_map].
  set (bw := prev_after b ws).
  set (f := fun st' : mstate =>
              run (lits fence)
                  (MState (prev st') (rest st')
                          (Some (consumed (lstrip x ++ fence ++ post) (rest st'))))).
  assert (G : run (RSeq (RGroup (RLazy CAny)) (lits fence))
                  (MState bw (lstrip x ++ fence ++ post) None)
              = flat_map f (spans CAny bw (lstrip x ++ fence ++ post) None)).
  { rewrite run_seq, run_group, run_lazy, flat_map_map. reflexivity. }
  rewrite G.
  destruct (spans_any_first f bw (lstrip x) (fence ++ post) None
              (MState (prev_after (prev_after bw (lstrip x)) fence) post
                      (Some (lstrip x))) []) as [l' E'].
  - intros a c Ec Hc. unfold f. cbn [prev rest]. rewrite run_lits.
    rewrite starts_ci_exact by reflexivity.
    rewrite (Hx (ws ++ a) c); [reflexivity | | exact Hc].
    rewrite E at 1. rewrite Ec, <- app_assoc. reflexivity.
  - unfold f. cbn [prev rest].
    replace (consumed (lstrip x ++ fence ++ post) (fence ++ post)) with (lstrip x)
      by (symmetry; apply consumed_app).
    apply run_lits_same. reflexivity.
  - rewrite E'. cbn [app]. eauto.
Qed.

Lemma starts_ci_stop (w body t : str) :
  forallb (fun c => negb (ci_eqb backtick c)) w = true ->
  starts_ci w (body ++ backtick :: t) = starts_ci w body.
Proof.
  revert body. induction w as [|c w IH]; intros body H; [reflexivity|].
  simpl in H. apply andb_true_iff in H. destruct H as [Hc Hw].
  destruct body as [|x body]; cbn [app starts_ci].
  - unfold ci_eqb in Hc. destruct (Ascii.eqb (lower backtick) (lower c));
      [discriminate | reflexivity].
  - rewrite (IH body Hw). reflexivity.
Qed.

(** The pattern at the first fence marker of the response. *)
Lemma run_cypher_pattern (b : option ascii) (body post : str) :
  earliest (starts_with fence) body (fence ++ post) ->
  exists st l,
    run cypher_pattern (MState b (fence ++ body ++ fence ++ post) None) = st :: l /\
    strip (group1 st) = strip (untagged body).
Proof.
  intros [_ Hbody]. unfold cypher_pattern.
  rewrite run_seq, (run_lits_same fence fence _ b None eq_refl).
  cbn [flat_map]. rewrite app_nil_r.
  set (b1 := prev_after b fence).
  set (R3 := RSeq (RStar CSpace) (RSeq (RGroup (RLazy CAny)) (lits fence))).
  rewrite run_seq, run_opt, run_noncap, run_alt, !run_lits.
  assert (Tail : fence ++ post = backtick :: [backtick; backtick] ++ post)
    by reflexivity.
  rewrite Tail, !starts_ci_stop by reflexivity. rewrite <- Tail.
  unfold untagged.
  destruct (starts_ci (py "cypher") body) eqn:Sc.
  - destruct (starts_ci_ex _ _ Sc) as [t [x [E [St [_ Kx]]]]].
    rewrite E, <- (app_assoc t x (fence ++ post)).
    destruct (same_letters_cut _ _ (x ++ fence ++ post) St) as [-> ->].
    replace (skipn 6 (t ++ x)) with x
      by (symmetry; apply (same_letters_cut _ _ x St)).
    destruct (run_fence_body (prev_after b1 t) x post) as [st [l [R G]]].
    + intros a c Ea Hc. apply (Hbody (t ++ a) c); [|exact Hc].
      rewrite E, Ea, <- app_assoc. reflexivity.
    + fold R3 in R. cbn [app flat_map]. rewrite R. cbn [app].
      eexists st, _. split; [reflexivity|]. rewrite G. apply strip_lstrip.
  - destruct (starts_ci (py "neo4j") body) eqn:Sn.
    + destruct (starts_ci_ex _ _ Sn) as [t [x [E [St [_ Kx]]]]].
      rewrite E, <- (app_assoc t x (fence ++ post)).
      destruct (same_letters_cut _ _ (x ++ fence ++ post) St) as [-> ->].
      replace (skipn 5 (t ++ x)) with x
        by (symmetry; apply (same_letters_cut _ _ x St)).
      destruct (run_fence_body (prev_after b1 t) x post) as [st [l [R G]]].
      * intros a c Ea Hc. apply (Hbody (t ++ a) c); [|exact Hc].
        rewrite E, Ea, <- app_assoc. reflexivity.
      * fold R3 in R. cbn [app flat_map]. rewrite R. cbn [app].
        eexists st, _. split; [reflexivity|]. rewrite G. apply strip_lstrip.
    + destruct (run_fence_body b1 body post) as [st [l [R G]]].
      * exact Hbody.
      * fold R3 in R. cbn [app flat_map]. rewrite R. cbn [app].
        eexists st, _. split; [reflexivity|]. rewrite G. apply strip_lstrip.
Qed.

Lemma run_cypher_pattern_no_fence (b : option ascii) (t : str) :
  starts_with fence t = false ->
  run cypher_pattern (MState b t None) = [].
Proof.
  intros H. unfold cypher_pattern.
  rewrite run_seq, run_lits, starts_ci_exact, H by reflexivity. reflexivity.
Qed.

(** The first rule of the extractor: the first fenced block wins. *)
Lemma extract_first_fence (pre body post : str) :
  earliest (starts_with fence) pre (fence ++ body ++ fence ++ post) ->
  earliest (starts_with fence) body (fence ++ post) ->
  extract_cypher_from_response (pre ++ fence ++ body ++ fence ++ post)
  = Ok (strip (untagged body)).
Proof.
  intros [_ Hpre] Hbody.
  destruct (run_cypher_pattern (prev_after None pre) body post Hbody)
    as [st [l [R G]]].
  assert (S : search_from cypher_pattern None (pre ++ fence ++ body ++ fence ++ post)
              = Some (length pre, st)).
  { apply search_from_first with (l := l); [|exact R].
    intros a c E Hc. apply run_cypher_pattern_no_fence.
    apply (Hpre a c); assumption. }
  destruct (re_findall_head _ _ _ _ S) as [l' F].
  unfold extract_cypher_from_response. rewrite F, G. reflexivity.
Qed.

(** ** The fallback: from MATCH to the first place to stop *)

Lemma match_pattern_eq :
  match_pattern = RGroup (RSeq (lits (py "MATCH")) (RSeq (RLazy CAny) terminator)).
Proof. reflexivity. Qed.

Lemma run_terminator (b : option ascii) (t : str) (g : option str) :
  run terminator (MState b t g) =
  (if starts_ci (py "RETURN") t
   then [MState (prev_after b (firstn 6 t)) (skipn 6 t) g] else [])
  ++ (if starts_with [semicolon] t
      then [MState (prev_after b (firstn 1 t)) (skipn 1 t) g] else [])
  ++ (if starts_with [newline; newline] t
      then [MState (prev_after b (firstn 2 t)) (skipn 2 t) g] else [])
  ++ match t with [] => [MState b t g] | _ :: _ => [] end.
Proof.
  unfold terminator. rewrite run_noncap, !run_alt, !run_lits, run_end.
  rewrite (starts_ci_exact [semicolon]) by reflexivity.
  rewrite (starts_ci_exact [newline; newline]) by reflexivity. reflexivity.
Qed.

Lemma run_terminator_none (b : option ascii) (t : str) (g : option str) :
  stops_here t = false -> run terminator (MState b t g) = [].
Proof.
  unfold stops_here. intros H.
  apply orb_false_iff in H. destruct H as [H H4].
  apply orb_false_iff in H. destruct H as [H H3].
  apply orb_false_iff in H. destruct H as [H1 H2].
  rewrite run_terminator, H1, H2, H3. destruct t; [discriminate | reflexivity].
Qed.

Lemma run_terminator_return (b : option ascii) (r post : str) (g : option str) :
  same_letters r (py "RETURN") ->
  exists l, run terminator (MState b (r ++ post) g)
            = MState (prev_after b r) post g :: l.
Proof.
  intros H. rewrite run_terminator, (same_letters_starts _ _ post H).
  destruct (same_letters_cut _ _ post H) as [E1 E2].
  change (length (py "RETURN")) with 6 in E1, E2. rewrite E1, E2.
  cbn [app]. eauto.
Qed.

Lemma run_match_pattern (b : option ascii) (m mid r post : str) :
  same_letters m (py "MATCH") -> same_letters r (py "RETURN") ->
  earliest stops_here mid (r ++ post) ->
  exists st l,
    run match_pattern (MState b (m ++ mid ++ r ++ post) None) = st :: l /\
    group1 st = m ++ mid ++ r.
Proof.
  intros Hm Hr [_ Hmid].
  rewrite match_pattern_eq, run_group, run_seq, (run_lits_same _ _ _ b None Hm).
  cbn [flat_map]. rewrite app_nil_r, run_seq, run_lazy.
  destruct (run_terminator_return (prev_after (prev_after b m) mid) r post None Hr)
    as [l R].
  destruct (spans_any_first (run terminator) (prev_after b m) mid (r ++ post) None
              (MState (prev_after (prev_after (prev_after b m) mid) r) post None) l)
    as [l' E].
  - intros a c Ea Hc. apply run_terminator_none. apply (Hmid a c); assumption.
  - exact R.
  - rewrite E. cbn [map prev rest]. eexists _, _. split; [reflexivity|].
    unfold group1. cbn [grp].
    replace (m ++ mid ++ r ++ post) with ((m ++ mid ++ r) ++ post)
      by (rewrite <- !app_assoc; reflexivity).
    apply consumed_app.
Qed.

Lemma run_match_pattern_none (b : option ascii) (t : str) :
  starts_ci (py "MATCH") t = false -> run match_pattern (MState b t None) = [].
Proof.
  intros H. rewrite match_pattern_eq, run_group, run_seq, run_lits, H. reflexivity.
Qed.

Lemma no_fence_no_block (s : str) :
  contains fence s = false -> re_findall cypher_pattern s = [].
Proof.
  intros H. apply re_findall_nil, search_from_none. intros p q E.
  apply run_cypher_pattern_no_fence. apply (contains_false fence p q).
  rewrite <- E. exact H.
Qed.

(** The second rule of the extractor. *)
Lemma extract_match_span (pre m mid r post : str) :
  contains fence (pre ++ m ++ mid ++ r ++ post) = false ->
  same_letters m (py "MATCH") -> same_letters r (py "RETURN") ->
  earliest (starts_ci (py "MATCH")) pre (m ++ mid ++ r ++ post) ->
  earliest stops_here mid (r ++ post) ->
  extract_cypher_from_response (pre ++ m ++ mid ++ r ++ post)
  = Ok (strip (m ++ mid ++ r)).
Proof.
  intros Hf Hm Hr [_ Hpre] Hmid.
  destruct (run_match_pattern (prev_after None pre) m mid r post Hm Hr Hmid)
    as [st [l [R G]]].
  assert (S : search_from match_pattern None (pre ++ m ++ mid ++ r ++ post)
              = Some (length pre, st)).
  { apply search_from_first with (l := l); [|exact R].
    intros a c E Hc. apply run_match_pattern_none. apply (Hpre a c); assumption. }
  destruct (re_findall_head _ _ _ _ S) as [l' F].
  unfold extract_cypher_from_response.
  rewrite (no_fence_no_block _ Hf), F, G. reflexivity.
Qed.

Lemma neo4j_is_not_cypher (tag x : str) :
  same_letters tag (py "neo4j") -> starts_ci (py "cypher") (tag ++ x) = false.
Proof.
  destruct tag as [|a tag]; [discriminate|].
  unfold same_letters, lower_str. simpl. intros H. injection H as Ha _.
  rewrite Ha. reflexivity.
Qed.

Lemma untagged_tag (tag x : str) :
  (tag = [] /\ untagged x = x) \/ same_letters tag (py "cypher")
  \/ same_letters tag (py "neo4j") ->
  untagged (tag ++ x) = x.
Proof.
  intros [[-> H] | [H | H]].
  - exact H.
  - unfold untagged. rewrite (same_letters_starts _ _ x H).
    apply (same_letters_cut _ _ x H).
  - unfold untagged.
    rewrite (neo4j_is_not_cypher _ x H), (same_letters_starts _ _ x H).
    apply (same_letters_cut _ _ x H).
Qed.

End Extractor.

(* ================================================================== *)
(** * The retry loop *)

Section Controller.

Variable to_string : nat -> list row -> str.
Variable repr_columns : list str -> str.
Variable w : World.

Lemma generate_enhanced_cypher_eq (question schema : str) (context : option str)
  (tr : trace) :
  generate_enhanced_cypher w question schema context tr =
  let prompt := generation_prompt question schema context in
  let answer := llm w tr prompt in
  (generated answer, tr ++ [LLMCall prompt answer]).
Proof.
  unfold generate_enhanced_cypher, try_except, bind, get_openai_response, lift,
    raise, generated, checked. cbn zeta.
  destruct (llm w tr _) as [t|e]; [|reflexivity].
  destruct (extract_cypher_from_response t) as [c|e]; [|reflexivity].
  destruct (validate_cypher_query c); reflexivity.
Qed.

Lemma improve_cypher_with_context_eq (original error_message schema : str)
  (tr : trace) :
  improve_cypher_with_context w original error_message schema tr =
  let prompt := improvement_prompt original error_message schema in
  let answer := llm w tr prompt in
  (Ok (repaired answer), tr ++ [LLMCall prompt answer]).
Proof.
  unfold improve_cypher_with_context, try_except, bind, get_openai_response, lift,
    ret, repaired, checked. cbn zeta.
  destruct (llm w tr _) as [t|e]; [|reflexivity].
  destruct (extract_cypher_from_response t) as [c|e]; [|reflexivity].
  destruct (validate_cypher_query c); reflexivity.
Qed.

Lemma checked_validated (answer : result str) (v : str) :
  checked answer = Ok v -> exists raw, validate_cypher_query raw = Ok v.
Proof.
  unfold checked. destruct answer as [t|e]; [|discriminate].
  destruct (extract_cypher_from_response t) as [c|e]; [|discriminate]. eauto.
Qed.

Lemma generated_validated (answer : result str) (v : str) :
  generated answer = Ok v -> exists raw, validate_cypher_query raw = Ok v.
Proof.
  unfold generated. destruct (checked answer) eqn:E; [|discriminate].
  intros H. injection H as <-. eapply checked_validated, E.
Qed.

Lemma provide_intelligent_answer_total (question : str) (df : list row)
  (query : str) (tr : trace) :
  exists answer tr',
    provide_intelligent_answer to_string repr_columns w question df query tr
      = (Ok answer, tr') /\
    (tr' = tr \/ exists p r, tr' = tr ++ [LLMCall p r]).
Proof.
  unfold provide_intelligent_answer. destruct (df_empty df).
  - exists no_results_message, tr. split; [reflexivity | auto].
  - unfold try_except, get_openai_response, ret.
    destruct (llm w tr _) as [a|e] eqn:E; eexists _, _; split;
      try reflexivity; right; eauto.
Qed.

(** [Markdown] loads its text when the text starts with http or names an
    existing file, and shows it as it is otherwise. *)
Lemma display_markdown_eq (text : str) (tr : trace) :
  display_markdown w text tr =
  if starts_with (py "http") text || path_exists w tr text
  then load w tr text else Ok tt.
Proof.
  unfold display_markdown.
  destruct (starts_with _ _); [reflexivity|].
  destruct (path_exists _ _ _); reflexivity.
Qed.

(** The [except] clause, case by case. *)
Lemma on_exception_eq (schema : str) (l : locals) (e : exn) (tr : trace) :
  on_exception w schema l e tr =
  if attempt l <? max_attempts then
    match cypher l with
    | Some c =>
        let prompt := improvement_prompt c (exn_str e) schema in
        let answer := llm w tr prompt in
        (Continue
           (Locals (attempt l + 1)
              (previous_attempts l ++ [attempt_record (attempt l) c (exn_str e)])
              (if truthy_opt (repaired answer) then repaired answer else Some c)),
         tr ++ [LLMCall prompt answer])
    | None => (Break (NoInitialQuery (exn_str e)) l, tr)
    end
  else (Break (FinalFailure (attempt l) (exn_str e) (cypher l)) l, tr).
Proof.
  unfold on_exception. destruct (attempt l <? max_attempts); [|reflexivity].
  destruct (cypher l) as [c|] eqn:C; [|reflexivity].
  rewrite improve_cypher_with_context_eq. cbn zeta.
  generalize (repaired (llm w tr (improvement_prompt c (exn_str e) schema))).
  intros o. destruct (truthy_opt o); reflexivity.
Qed.

(** The loop rule: an invariant that every pass keeps, and a conclusion
    that every way of leaving the loop establishes.  The loop always
    ends within [max_attempts] passes. *)
Lemma retry_loop_rule (question schema : str)
  (Inv : locals -> trace -> Prop) (Post : outcome -> locals -> trace -> Prop) :
  (forall l tr, Inv l tr -> attempt l <= max_attempts ->
     match iteration to_string repr_columns w question schema l tr with
     | (Continue l', tr') => Inv l' tr' /\ attempt l' = S (attempt l)
     | (Break o l', tr') => Post o l' tr'
     end) ->
  (forall l tr, Inv l tr -> max_attempts < attempt l ->
     Post LoopConditionFalse l tr) ->
  forall fuel l tr,
    Inv l tr -> max_attempts + 1 - attempt l <= fuel ->
    exists o l' tr',
      retry_loop to_string repr_columns w fuel question schema l tr
        = Some (o, l', tr') /\ Post o l' tr'.
Proof.
  intros Hstep Hexit. induction fuel as [|fuel IH]; intros l tr HI Hfuel.
  - assert (Hgt : max_attempts < attempt l) by lia.
    exists LoopConditionFalse, l, tr. split; [|auto].
    cbn [retry_loop]. destruct (attempt l <=? max_attempts) eqn:E;
      [apply Nat.leb_le in E; lia | reflexivity].
  - cbn [retry_loop]. destruct (attempt l <=? max_attempts) eqn:E.
    + apply Nat.leb_le in E. specialize (Hstep l tr HI E).
      destruct (iteration to_string repr_columns w question schema l tr)
        as [[l' | o l'] tr'].
      * destruct Hstep as [HI' Hatt]. apply IH; [exact HI' | lia].
      * eauto.
    + apply Nat.leb_gt in E. exists LoopConditionFalse, l, tr. auto.
Qed.

Lemma iteration_eq (question schema : str) (l : locals) (tr : trace) :
  iteration to_string repr_columns w question schema l tr =
  let prompt := generation_prompt question schema (context_of (previous_attempts l)) in
  let answer := llm w tr prompt in
  let tr1 := tr ++ [LLMCall prompt answer] in
  match generated answer with
  | Raise e => on_exception w schema l e tr1
  | Ok c =>
      let l1 := Locals (attempt l) (previous_attempts l) (Some c) in
      let r := db w tr1 c in
      let tr2 := tr1 ++ [DBQuery c r] in
      match r with
      | Raise e => on_exception w schema l1 e tr2
      | Ok results =>
          match provide_intelligent_answer to_string repr_columns w question
                  (match results with [] => [] | _ :: _ => results end) c tr2 with
          | (Ok ai_answer, tr3) =>
              match display_markdown w ai_answer tr3 with
              | Ok _ => (Break (Answered c results ai_answer) l1, tr3)
              | Raise e => on_exception w schema l1 e tr3
              end
          | (Raise e, tr3) => on_exception w schema l1 e tr3
          end
      end
  end.
Proof.
  unfold iteration. fold (context_of (previous_attempts l)).
  rewrite generate_enhanced_cypher_eq. reflexivity.
Qed.

(** ** What holds of every session *)

Lemma count_app (p : event -> bool) (a b : trace) :
  count p (a ++ b) = count p a + count p b.
Proof. unfold count. rewrite filter_app, length_app. reflexivity. Qed.

Lemma count_failed_le (tr : trace) : count is_failed_db tr <= count is_db tr.
Proof.
  unfold count. induction tr as [|e tr IH]; simpl; [lia|].
  destruct e as [p r | q [rows | x]]; simpl; lia.
Qed.

Lemma executed_app (a b : trace) : executed (a ++ b) = executed a ++ executed b.
Proof. unfold executed. apply flat_map_app. Qed.

Lemma on_exception_keeps (schema : str) (l : locals) (e : exn) (tr : trace) :
  1 <= attempt l <= max_attempts ->
  count is_db tr <= attempt l ->
  length (previous_attempts l) + 1 = attempt l ->
  Forall validated (executed tr) ->
  match on_exception w schema l e tr with
  | (Continue l', tr') => loop_invariant l' tr' /\ attempt l' = S (attempt l)
  | (Break o l', tr') => session_end o l' tr'
  end.
Proof.
  intros Ha Hdb Hp Hv. rewrite on_exception_eq.
  destruct (attempt l <? max_attempts) eqn:E.
  - apply Nat.ltb_lt in E. destruct (cypher l) as [c|] eqn:C.
    + cbn zeta. split; [|cbn [attempt]; lia].
      unfold loop_invariant. cbn [attempt previous_attempts].
      rewrite count_app, executed_app, length_app. cbn. rewrite app_nil_r.
      repeat split; try lia. exact Hv.
    + unfold session_end. repeat split; try lia; try assumption.
      pose proof (count_failed_le tr). lia.
  - apply Nat.ltb_ge in E. unfold session_end. repeat split; try lia; assumption.
Qed.

Lemma iteration_keeps (question schema : str) (l : locals) (tr : trace) :
  loop_invariant l tr -> attempt l <= max_attempts ->
  match iteration to_string repr_columns w question schema l tr with
  | (Continue l', tr') => loop_invariant l' tr' /\ attempt l' = S (attempt l)
  | (Break o l', tr') => session_end o l' tr'
  end.
Proof.
  intros [Ha [Hdb [Hp Hv]]] _. rewrite iteration_eq. cbn zeta.
  set (prompt := generation_prompt _ _ _).
  set (answer := llm w tr prompt).
  set (tr1 := tr ++ [LLMCall prompt answer]).
  assert (D1 : count is_db tr1 = count is_db tr)
    by (unfold tr1; rewrite count_app; cbn; lia).
  assert (V1 : Forall validated (executed tr1))
    by (unfold tr1; rewrite executed_app; cbn; rewrite app_nil_r; exact Hv).
  destruct (generated answer) as [c|e] eqn:G.
  - set (tr2 := tr1 ++ [DBQuery c (db w tr1 c)]).
    assert (D2 : count is_db tr2 = count is_db tr + 1)
      by (unfold tr2; rewrite count_app, D1; cbn; lia).
    assert (V2 : Forall validated (executed tr2)).
    { unfold tr2. rewrite executed_app. apply Forall_app. split; [exact V1|].
      cbn. constructor; [|constructor]. exact (generated_validated _ _ G). }
    destruct (db w tr1 c) as [results|e] eqn:R.
    + destruct (provide_intelligent_answer_total question
                  (match results with [] => [] | _ :: _ => results end) c tr2)
        as [a [tr3 [E3 H3]]].
      rewrite E3.
      assert (F2 : count is_failed_db tr2 = count is_failed_db tr)
        by (unfold tr2, tr1; rewrite !count_app; cbn; lia).
      pose proof (count_failed_le tr) as Hle.
      assert (T3 : count is_db tr3 = count is_db tr + 1 /\
                   count is_failed_db tr3 = count is_failed_db tr /\
                   Forall validated (executed tr3)).
      { destruct H3 as [-> | [p [r ->]]].
        - repeat split; try lia; assumption.
        - rewrite !count_app, executed_app. cbn. rewrite app_nil_r.
          repeat split; try lia; assumption. }
      destruct T3 as [D3 [F3 V3]].
      destruct (display_markdown w a tr3) as [u|e].
      * unfold session_end. cbn [attempt previous_attempts cypher].
        repeat split; try lia; assumption.
      * apply (on_exception_keeps schema
                 (Locals (attempt l) (previous_attempts l) (Some c)) e tr3);
          cbn [attempt previous_attempts]; try lia; assumption.
    + apply (on_exception_keeps schema
                (Locals (attempt l) (previous_attempts l) (Some c)) e tr2);
        cbn [attempt previous_attempts]; try lia; assumption.
  - apply (on_exception_keeps schema l e tr1); try lia; assumption.
Qed.

(** Every pass asks for a new generation first, and the statement it
    executes, if any, is the one that generation produced; what [cypher]
    held when the pass began is not executed. *)
Lemma iteration_executes_the_generated (question schema : str) (l : locals)
  (tr : trace) :
  let prompt := generation_prompt question schema (context_of (previous_attempts l)) in
  let answer := llm w tr prompt in
  exists later,
    (snd (iteration to_string repr_columns w question schema l tr)
     = tr ++ LLMCall prompt answer :: later) /\
    (executed later
     = match generated answer with Ok c => [c] | Raise _ => [] end).
Proof.
  cbn zeta. rewrite iteration_eq. cbn zeta.
  set (prompt := generation_prompt _ _ _).
  set (answer := llm w tr prompt).
  assert (X : forall l0 e tr0, exists more,
             snd (on_exception w schema l0 e tr0) = tr0 ++ more /\ executed more = []).
  { intros l0 e tr0. rewrite on_exception_eq.
    destruct (attempt l0 <? max_attempts); [|exists []; rewrite app_nil_r; auto].
    destruct (cypher l0); [|exists []; rewrite app_nil_r; auto].
    cbn zeta. eexists [_]. split; reflexivity. }
  destruct (generated answer) as [c|e].
  - destruct (db w (tr ++ [LLMCall prompt answer]) c) as [results|e] eqn:R.
    + destruct (provide_intelligent_answer_total question
                  (match results with [] => [] | _ :: _ => results end) c
                  ((tr ++ [LLMCall prompt answer]) ++ [DBQuery c (Ok results)]))
        as [a [tr3 [E3 H3]]].
      rewrite E3.
      assert (Y : exists mid, tr3 = (tr ++ [LLMCall prompt answer])
                                    ++ DBQuery c (Ok results) :: mid /\
                              executed mid = []).
      { destruct H3 as [-> | [p [r ->]]].
        - exists []. auto.
        - exists [LLMCall p r]. rewrite <- !app_assoc. auto. }
      destruct Y as [mid [-> Ymid]].
      destruct (display_markdown w a _) as [u|e].
      * cbn [snd]. exists (DBQuery c (Ok results) :: mid).
        rewrite <- !app_assoc. split; [reflexivity|].
        unfold executed in *. cbn [flat_map app]. rewrite Ymid. reflexivity.
      * destruct (X (Locals (attempt l) (previous_attempts l) (Some c)) e
                    ((tr ++ [LLMCall prompt answer])
                     ++ DBQuery c (Ok results) :: mid)) as [more [E M]].
        rewrite E. exists (DBQuery c (Ok results) :: mid ++ more).
        rewrite <- !app_assoc. split; [reflexivity|].
        unfold executed in *. cbn [flat_map app]. rewrite flat_map_app, Ymid, M.
        reflexivity.
    + destruct (X (Locals (attempt l) (previous_attempts l) (Some c)) e
                  ((tr ++ [LLMCall prompt answer]) ++ [DBQuery c (Raise e)]))
        as [more [E M]].
      rewrite E. exists (DBQuery c (Raise e) :: more). rewrite <- !app_assoc.
      split; [reflexivity|]. unfold executed in *. cbn [flat_map app].
      rewrite M. reflexivity.
  - destruct (X l e (tr ++ [LLMCall prompt answer])) as [more [E M]].
    rewrite E. exists more. rewrite <- app_assoc. auto.
Qed.

(** Every session ends, within [max_attempts] passes, in [session_end]. *)
Lemma session_summary (question schema : str) (cypher0 : option str) :
  exists o l tr,
    session to_string repr_columns w question schema cypher0 []
      = Some (o, l, tr) /\ session_end o l tr.
Proof.
  unfold session.
  apply (retry_loop_rule question schema loop_invariant session_end).
  - apply iteration_keeps.
  - intros l tr [[_ Ha] _] Hgt. lia.
  - unfold loop_invariant, max_attempts. cbn. repeat split; try lia. constructor.
  - cbn. unfold max_attempts. lia.
Qed.

End Controller.

(* ================================================================== *)
(** * The properties of the specification *)

Section Properties.

Import Scenario.

(** C2.  A string that contains one of the denylisted keywords (DROP,
    DELETE, CREATE, SET, REMOVE, MERGE, or DETACH followed by white space
    and DELETE), in any letter case and standing on word boundaries, is
    rejected: the validator raises the error that names the pattern.  A
    string that contains none of them is accepted and the result ends with
    the statement delimiter. *)
Theorem validate_rejects_exactly_the_denylisted (s : str) :
  (denylisted s ->
   exists pattern, In pattern destructive_patterns /\
     validate_cypher_query s = Raise (ValueError (blocked_message pattern))) /\
  (~ denylisted s ->
   exists v, validate_cypher_query s = Ok v /\ endswith_char semicolon v = true).
Proof.
  split.
  - intros D. destruct (validate_blocked s D) as [p [Hin [_ E]]]. eauto.
  - intros N. exists (terminated (strip s)). split.
    + apply validate_ok, N.
    + apply terminated_ends.
Qed.

Lemma validate_rejects_exactly_the_denylisted_witness :
  (exists pattern, In pattern destructive_patterns /\
     validate_cypher_query (py "MATCH (n) detach   Delete n")
     = Raise (ValueError (blocked_message pattern))) /\
  (exists v, validate_cypher_query (py "MATCH (n) RETURN n.offset") = Ok v /\
             endswith_char semicolon v = true).
Proof.
  split.
  - apply (proj1 (validate_rejects_exactly_the_denylisted
                    (py "MATCH (n) detach   Delete n"))).
    right. exists (py "MATCH (n) "), (py "detach"), (py "   "), (py "Delete"), (py " n").
    repeat split; try reflexivity. discriminate.
  - apply (proj2 (validate_rejects_exactly_the_denylisted
                    (py "MATCH (n) RETURN n.offset"))).
    intros D. apply denylisted_found in D. vm_compute in D. discriminate.
Defined.

(** C9.  A string that ends with the delimiter, contains no denylisted
    keyword and has no white space around it is returned unchanged; and
    validating the result of a successful validation returns it again. *)
Theorem validate_idempotent (s : str) :
  (endswith_char semicolon s = true -> ~ denylisted s -> trimmed s ->
   validate_cypher_query s = Ok s) /\
  (forall v, validate_cypher_query s = Ok v -> validate_cypher_query v = Ok v).
Proof.
  split.
  - intros E N T. apply validate_fixed; assumption.
  - intros v H. destruct (validated_shape s v H) as [N [T E]].
    apply validate_fixed; assumption.
Qed.

Lemma validate_idempotent_witness :
  validate_cypher_query (py "MATCH (n) RETURN n;") = Ok (py "MATCH (n) RETURN n;") /\
  validate_cypher_query (py "match (n) return n;") = Ok (py "match (n) return n;").
Proof.
  split.
  - apply (proj1 (validate_idempotent (py "MATCH (n) RETURN n;"))).
    + reflexivity.
    + intros D. apply denylisted_found in D. vm_compute in D. discriminate.
    + split; intros c H; vm_compute in H; injection H as <-; reflexivity.
  - apply (proj2 (validate_idempotent (py "  match (n) return n  "))
                 (py "match (n) return n;")).
    vm_compute. reflexivity.
Defined.

(** C5.  In every session, whatever the two services answer, each
    statement handed to the database came out of the validator; so it
    contains no denylisted keyword and ends with the delimiter. *)
Theorem executed_statements_are_validated
  (to_string : nat -> list row -> str) (repr_columns : list str -> str)
  (w : World) (question schema : str) (cypher0 : option str) :
  exists o l tr,
    session to_string repr_columns w question schema cypher0 [] = Some (o, l, tr) /\
    Forall (fun statement =>
              validated statement /\ ~ denylisted statement /\
              endswith_char semicolon statement = true)
           (executed tr).
Proof.
  destruct (session_summary to_string repr_columns w question schema cypher0)
    as [o [l [tr [E [_ [_ [_ [V _]]]]]]]].
  exists o, l, tr. split; [exact E|].
  apply Forall_forall. intros q Hq. rewrite Forall_forall in V.
  destruct (V q Hq) as [raw Hraw]. split; [exists raw; exact Hraw|].
  destruct (validated_shape raw q Hraw) as [N [_ Hend]]. auto.
Qed.

(** C3.  A session hands at most three statements to the database.  When
    three executions fail, the session ends in the final failure with the
    attempt counter at 3, and those three are all the executions. *)
Theorem three_failures_exhaust_the_session
  (to_string : nat -> list row -> str) (repr_columns : list str -> str)
  (w : World) (question schema : str) (cypher0 : option str) :
  exists o l tr,
    session to_string repr_columns w question schema cypher0 [] = Some (o, l, tr) /\
    count is_db tr <= 3 /\
    (count is_failed_db tr = 3 ->
     attempt l = 3 /\ count is_db tr = 3 /\
     exists error_msg last_query, o = FinalFailure 3 error_msg last_query).
Proof.
  destruct (session_summary to_string repr_columns w question schema cypher0)
    as [o [l [tr [E [Ha [Hdb [_ [_ Ho]]]]]]]].
  exists o, l, tr. split; [exact E|]. unfold max_attempts in *.
  split; [lia|]. intros F. pose proof (count_failed_le tr) as Hle.
  destruct o as [q rows a | err | n err last |].
  - destruct Ho as [Ho _]. lia.
  - destruct Ho as [Ho _]. lia.
  - destruct Ho as [-> [Hatt _]]. repeat split; try lia. eauto.
  - destruct Ho.
Qed.

Lemma three_failures_exhaust_the_session_witness :
  exists l tr error_msg last_query,
    session no_rendering no_repr rejecting question schema None []
      = Some (FinalFailure 3 error_msg last_query, l, tr) /\
    attempt l = 3 /\ count is_db tr = 3.
Proof.
  destruct (three_failures_exhaust_the_session
              no_rendering no_repr rejecting question schema None)
    as [o [l [tr [E [_ H]]]]].
  assert (F : count is_failed_db tr = 3).
  { vm_compute in E. injection E as _ _ <-. reflexivity. }
  destruct (H F) as [Ha [Hd [err [last ->]]]].
  exists l, tr, err, last. auto.
Defined.

(** C4, as the notebook has it.  A failure below the attempt ceiling,
    with a query bound, appends exactly one record made of the attempt
    index, the query and the error text; a failure at the ceiling appends
    none.  So a session always ends with one record fewer than its attempt
    counter, and after three failed executions it ends in the final
    failure with exactly 2 records. *)
Theorem one_record_per_retried_failure
  (to_string : nat -> list row -> str) (repr_columns : list str -> str)
  (w : World) (question schema : str) (cypher0 : option str) :
  (forall l e tr c,
     attempt l < max_attempts -> cypher l = Some c ->
     exists l' tr',
       on_exception w schema l e tr = (Continue l', tr') /\
       previous_attempts l' =
         previous_attempts l ++ [attempt_record (attempt l) c (exn_str e)]) /\
  (forall l e tr,
     max_attempts <= attempt l ->
     on_exception w schema l e tr =
       (Break (FinalFailure (attempt l) (exn_str e) (cypher l)) l, tr)) /\
  exists o l tr,
    session to_string repr_columns w question schema cypher0 [] = Some (o, l, tr) /\
    length (previous_attempts l) = attempt l - 1 /\
    (count is_failed_db tr = 3 ->
     length (previous_attempts l) = 2 /\
     exists error_msg last_query, o = FinalFailure 3 error_msg last_query).
Proof.
  split; [|split].
  - intros l e tr c Ha Hc. rewrite on_exception_eq.
    apply Nat.ltb_lt in Ha. rewrite Ha, Hc. cbn zeta. eexists _, _.
    split; reflexivity.
  - intros l e tr Ha. rewrite on_exception_eq.
    apply Nat.ltb_ge in Ha. rewrite Ha. reflexivity.
  - destruct (session_summary to_string repr_columns w question schema cypher0)
      as [o [l [tr [E [Ha [Hdb [Hp [_ Ho]]]]]]]].
    exists o, l, tr. split; [exact E|]. unfold max_attempts in *.
    split; [lia|]. intros F. pose proof (count_failed_le tr) as Hle.
    destruct o as [q rows a | err | n err last |].
    + destruct Ho as [Ho _]. lia.
    + destruct Ho as [Ho _]. lia.
    + destruct Ho as [-> [Hatt _]]. split; [lia | eauto].
    + destruct Ho.
Qed.

Lemma one_record_per_retried_failure_witness :
  exists l tr error_msg last_query,
    session no_rendering no_repr rejecting question schema None []
      = Some (FinalFailure 3 error_msg last_query, l, tr) /\
    length (previous_attempts l) = 2.
Proof.
  destruct (one_record_per_retried_failure
              no_rendering no_repr rejecting question schema None)
    as [_ [_ [o [l [tr [E [_ H]]]]]]].
  assert (F : count is_failed_db tr = 3).
  { vm_compute in E. injection E as _ _ <-. reflexivity. }
  destruct (H F) as [Hp [err [last ->]]].
  exists l, tr, err, last. auto.
Defined.

(** C4, as the specification states it, fails: three executions fail,
    every repair call comes back with nothing usable, the session ends in
    the final failure, and the record sequence has length 2, not 3. *)
Lemma three_failures_leave_two_records :
  exists l tr,
    session no_rendering no_repr rejecting question schema None []
      = Some (FinalFailure 3 db_error (Some first_query), l, tr) /\
    count is_failed_db tr = 3 /\
    Forall (fun e => match e with
                     | LLMCall prompt answer =>
                         is_repair_request prompt = true -> repaired answer = None
                     | DBQuery _ _ => True
                     end) tr /\
    previous_attempts l =
      [attempt_record 1 first_query db_error; attempt_record 2 first_query db_error] /\
    length (previous_attempts l) <> 3.
Proof.
  eexists _, _. split; [vm_compute; reflexivity|].
  split; [reflexivity|]. split.
  - repeat constructor; vm_compute; try reflexivity; discriminate.
  - split; [reflexivity | discriminate].
Qed.

(** While [cypher] is unbound, a failure of the first generation ends
    the session there: the only service call is that generation request,
    nothing is recorded, no repair is asked for, nothing is executed, and
    the loop is left normally with the error text. *)
Lemma unbound_generation_failure_ends_the_session
  (to_string : nat -> list row -> str) (repr_columns : list str -> str)
  (w : World) (question schema : str) (e : exn) :
  generated (llm w [] (first_prompt question schema)) = Raise e ->
  session to_string repr_columns w question schema None []
  = Some (NoInitialQuery (exn_str e), Locals 1 [] None,
          [LLMCall (first_prompt question schema)
                   (llm w [] (first_prompt question schema))]).
Proof.
  intros H. unfold session, max_attempts. cbn [retry_loop attempt Nat.leb].
  rewrite iteration_eq. cbn [previous_attempts context_of]. cbn zeta.
  fold (first_prompt question schema). rewrite H, on_exception_eq. reflexivity.
Qed.

Lemma unbound_generation_failure_ends_the_session_example :
  session no_rendering no_repr unreachable question schema None []
  = Some (NoInitialQuery
            (py "Failed to generate valid Cypher query: connection refused"),
          Locals 1 [] None,
          [LLMCall (first_prompt question schema)
                   (Raise (ServiceError (py "connection refused")))]).
Proof.
  apply (unbound_generation_failure_ends_the_session
           no_rendering no_repr unreachable question schema
           (ValueError (py "Failed to generate valid Cypher query: connection refused"))).
  reflexivity.
Qed.

(** C7, on the notebook.  The name [cypher] belongs to the function and
    the lines that start a question reset the attempt counter and the
    records, not [cypher].  In this run the first question is answered;
    on the second question the first generation fails, and no candidate
    has been produced for that question.  The session does not end there:
    the query of the first question is recorded as the failed attempt and
    sent to repair, this happens again on the second attempt, and the
    session ends in the final failure after three attempts, with two
    records and two repair requests, all about the query of the first
    question. *)
Theorem first_generation_failure_repairs_an_earlier_query :
  exists analysis l1 tr1 l2 tr2,
    session no_rendering no_repr failing_later question schema None []
      = Some (Answered repaired_query [[(py "b", py "Emma")]] analysis, l1, tr1) /\
    cypher l1 = Some repaired_query /\
    generated (llm failing_later tr1 (first_prompt later_question schema))
      = Raise (ValueError generation_error) /\
    session no_rendering no_repr failing_later later_question schema (cypher l1) tr1
      = Some (FinalFailure 3 generation_error (Some repaired_query), l2, tr2) /\
    previous_attempts l2 =
      [attempt_record 1 repaired_query generation_error;
       attempt_record 2 repaired_query generation_error] /\
    filter is_repair_request (prompts (skipn (length tr1) tr2)) =
      [improvement_prompt repaired_query generation_error schema;
       improvement_prompt repaired_query generation_error schema] /\
    executed (skipn (length tr1) tr2) = [] /\
    query_neo4j_with_reasoning no_rendering no_repr failing_later schema
      [question; later_question; py "quit"]
    = Some ([Answered repaired_query [[(py "b", py "Emma")]] analysis;
             FinalFailure 3 generation_error (Some repaired_query)],
            SentinelRead, tr2).
Proof.
  eexists _, _, _, _, _. split; [vm_compute; reflexivity|].
  repeat split; vm_compute; reflexivity.
Qed.

(** C8.  On an empty result, be it one without rows or one whose rows
    have no columns, the interpreter returns the fixed message, which
    reads as written out here and lists the three causes (no such data,
    too specific criteria, a mismatch in the query logic), and it leaves
    the trace as it was: the text-generation service is not called.  (On
    a result with rows and columns it is called, once.)  In the loop, a
    query that returns no rows ends the session with that message once
    the message is displayed, and the database query is the last call
    made. *)
Theorem empty_result_gets_the_fixed_message
  (to_string : nat -> list row -> str) (repr_columns : list str -> str)
  (w : World) (question query : str) (tr : trace) :
  (forall df, df_empty df = true ->
     provide_intelligent_answer to_string repr_columns w question df query tr
     = (Ok (py "No results were found for your query. This could mean:" ++ [newline]
       ++ py "- The data you're looking for doesn't exist in the database"
       ++ [newline]
       ++ py "- The search criteria might be too specific" ++ [newline]
       ++ py "- There might be a slight mismatch in the query logic"),
        tr)) /\
  (forall df, df_empty df = false ->
     exists answer prompt r,
       provide_intelligent_answer to_string repr_columns w question df query tr
       = (Ok answer, tr ++ [LLMCall prompt r])) /\
  (forall schema l answer,
     generated
       (llm w tr (generation_prompt question schema (context_of (previous_attempts l))))
     = Ok query ->
     db w (tr ++ [LLMCall
                    (generation_prompt question schema
                       (context_of (previous_attempts l)))
                    (llm w tr (generation_prompt question schema
                                 (context_of (previous_attempts l))))]) query
     = Ok [] ->
     answer = (py "No results were found for your query. This could mean:" ++ [newline]
       ++ py "- The data you're looking for doesn't exist in the database"
       ++ [newline]
       ++ py "- The search criteria might be too specific" ++ [newline]
       ++ py "- There might be a slight mismatch in the query logic") ->
     display_markdown w answer
       ((tr ++ [LLMCall
                  (generation_prompt question schema
                     (context_of (previous_attempts l)))
                  (llm w tr (generation_prompt question schema
                               (context_of (previous_attempts l))))])
        ++ [DBQuery query (Ok [])]) = Ok tt ->
     iteration to_string repr_columns w question schema l tr
     = (Break (Answered query [] answer)
              (Locals (attempt l) (previous_attempts l) (Some query)),
        (tr ++ [LLMCall
                  (generation_prompt question schema
                     (context_of (previous_attempts l)))
                  (llm w tr (generation_prompt question schema
                               (context_of (previous_attempts l))))])
        ++ [DBQuery query (Ok [])])).
Proof.
  split; [|split].
  - intros df Hdf. unfold provide_intelligent_answer. rewrite Hdf. reflexivity.
  - intros df Hdf. unfold provide_intelligent_answer. rewrite Hdf.
    unfold try_except, get_openai_response, ret.
    destruct (llm w tr _) as [a|e] eqn:E; eexists _, _, _; reflexivity.
  - intros schema l answer Hgen Hdb -> Hshow. rewrite iteration_eq. cbn zeta.
    rewrite Hgen, Hdb.
    change (provide_intelligent_answer to_string repr_columns w question [] query
              ((tr ++ [LLMCall
                         (generation_prompt question schema
                            (context_of (previous_attempts l)))
                         (llm w tr (generation_prompt question schema
                                      (context_of (previous_attempts l))))])
               ++ [DBQuery query (Ok [])]))
      with (Ok no_results_message,
            (tr ++ [LLMCall
                      (generation_prompt question schema
                         (context_of (previous_attempts l)))
                      (llm w tr (generation_prompt question schema
                                   (context_of (previous_attempts l))))])
            ++ [DBQuery query (Ok [])]).
    cbv iota beta. change no_results_message with (py "No results were found for your query. This could mean:" ++ [newline]
       ++ py "- The data you're looking for doesn't exist in the database"
       ++ [newline]
       ++ py "- The search criteria might be too specific" ++ [newline]
       ++ py "- There might be a slight mismatch in the query logic").
    rewrite Hshow. reflexivity.
Qed.

Lemma empty_result_gets_the_fixed_message_witness :
  provide_intelligent_answer no_rendering no_repr unreachable question
    [[]; []] repaired_query []
  = (Ok (py "No results were found for your query. This could mean:" ++ [newline]
       ++ py "- The data you're looking for doesn't exist in the database"
       ++ [newline]
       ++ py "- The search criteria might be too specific" ++ [newline]
       ++ py "- There might be a slight mismatch in the query logic"),
     []) /\
  (exists answer prompt r,
     provide_intelligent_answer no_rendering no_repr failing_later question
       [[(py "b", py "Emma")]] repaired_query []
     = (Ok answer, [LLMCall prompt r])) /\
  exists answer tr,
    iteration no_rendering no_repr finding_nothing question schema (Locals 1 [] None) []
    = (Break (Answered repaired_query [] answer)
             (Locals 1 [] (Some repaired_query)), tr) /\
    count is_llm tr = 1.
Proof.
  split; [|split].
  - apply (proj1 (empty_result_gets_the_fixed_message
                    no_rendering no_repr unreachable question repaired_query [])).
    reflexivity.
  - apply (proj1 (proj2 (empty_result_gets_the_fixed_message
                           no_rendering no_repr failing_later question
                           repaired_query []))).
    reflexivity.
  - eexists _, _. split.
    + apply (proj2 (proj2 (empty_result_gets_the_fixed_message
                             no_rendering no_repr finding_nothing question
                             repaired_query [])) schema (Locals 1 [] None));
        vm_compute; reflexivity.
    + reflexivity.
Defined.

(** C10.  When the first fence marker of a response opens a block that
    the next fence marker closes, the extractor returns the contents of
    that block, without the cypher or neo4j tag if there is one, trimmed;
    what precedes the block and what follows it, further blocks
    included, plays no part. *)
Theorem first_fenced_block_wins (pre body post : str) :
  earliest (starts_with fence) pre (fence ++ body ++ fence ++ post) ->
  earliest (starts_with fence) body (fence ++ post) ->
  extract_cypher_from_response (pre ++ fence ++ body ++ fence ++ post)
  = Ok (strip (untagged body)).
Proof. apply extract_first_fence. Qed.

Lemma first_fenced_block_wins_witness :
  extract_cypher_from_response
    (py "Here you go: " ++ fence ++ py " MATCH (n) RETURN n " ++ fence
     ++ py " or " ++ in_fence "MATCH (m) RETURN m")
  = Ok (py "MATCH (n) RETURN n").
Proof.
  apply (first_fenced_block_wins (py "Here you go: ") (py " MATCH (n) RETURN n ")
           (py " or " ++ in_fence "MATCH (m) RETURN m"));
    apply earliestb_sound; vm_compute; reflexivity.
Defined.

(** C6, as the notebook has it.  When the first fence marker of a
    response opens a block that the next fence marker closes, and the
    block holds the text X after an optional cypher or neo4j tag, the
    extractor returns X trimmed.  When a response has no fence marker,
    the extractor reads the letters MATCH and the letters RETURN in any
    letter case, whether they stand as a word or inside a longer word
    (matches, returned).  When the first occurrence of the letters MATCH
    is followed by an occurrence of the letters RETURN, with no other
    occurrence of the letters RETURN, no semicolon and no blank line
    between the two, the extractor returns the text from those letters
    MATCH through those letters RETURN, trimmed. *)
Theorem extract_round_trip :
  (forall pre tag x post,
     (tag = [] /\ untagged x = x) \/ same_letters tag (py "cypher")
     \/ same_letters tag (py "neo4j") ->
     earliest (starts_with fence) pre (fence ++ (tag ++ x) ++ fence ++ post) ->
     earliest (starts_with fence) (tag ++ x) (fence ++ post) ->
     extract_cypher_from_response (pre ++ fence ++ (tag ++ x) ++ fence ++ post)
     = Ok (strip x)) /\
  (forall pre m mid r post,
     contains fence (pre ++ m ++ mid ++ r ++ post) = false ->
     same_letters m (py "MATCH") -> same_letters r (py "RETURN") ->
     earliest (starts_ci (py "MATCH")) pre (m ++ mid ++ r ++ post) ->
     earliest stops_here mid (r ++ post) ->
     extract_cypher_from_response (pre ++ m ++ mid ++ r ++ post)
     = Ok (strip (m ++ mid ++ r))).
Proof.
  split.
  - intros pre tag x post Htag Hpre Hbody.
    rewrite (extract_first_fence pre (tag ++ x) post Hpre Hbody).
    rewrite (untagged_tag tag x Htag). reflexivity.
  - apply extract_match_span.
Qed.

Lemma extract_round_trip_witness :
  extract_cypher_from_response
    (py "Sure: " ++ fence ++ (py "Cypher" ++ py " MATCH (n) RETURN n ") ++ fence ++ [])
  = Ok (py "MATCH (n) RETURN n") /\
  extract_cypher_from_response
    (py "Try " ++ py "match" ++ py " (n) " ++ py "return" ++ py " n")
  = Ok (py "match (n) return") /\
  extract_cypher_from_response
    (py "This query " ++ py "match" ++ py "es all books: MATCH (b:Book) "
     ++ py "RETURN" ++ py " b.title")
  = Ok (py "matches all books: MATCH (b:Book) RETURN") /\
  extract_cypher_from_response
    ([] ++ py "MATCH" ++ py " (b:Book) WHERE b." ++ py "return"
     ++ py "ed = true RETURN b.title")
  = Ok (py "MATCH (b:Book) WHERE b.return").
Proof.
  split; [|split; [|split]].
  - apply (proj1 extract_round_trip (py "Sure: ") (py "Cypher")
             (py " MATCH (n) RETURN n ") []).
    + right. left. reflexivity.
    + apply earliestb_sound. vm_compute. reflexivity.
    + apply earliestb_sound. vm_compute. reflexivity.
  - apply (proj2 extract_round_trip (py "Try ") (py "match") (py " (n) ")
             (py "return") (py " n")).
    + reflexivity.
    + reflexivity.
    + reflexivity.
    + apply earliestb_sound. vm_compute. reflexivity.
    + apply earliestb_sound. vm_compute. reflexivity.
  - apply (proj2 extract_round_trip (py "This query ") (py "match")
             (py "es all books: MATCH (b:Book) ") (py "RETURN") (py " b.title")).
    + reflexivity.
    + reflexivity.
    + reflexivity.
    + apply earliestb_sound. vm_compute. reflexivity.
    + apply earliestb_sound. vm_compute. reflexivity.
  - apply (proj2 extract_round_trip [] (py "MATCH") (py " (b:Book) WHERE b.")
             (py "return") (py "ed = true RETURN b.title")).
    + reflexivity.
    + reflexivity.
    + reflexivity.
    + apply earliestb_sound. vm_compute. reflexivity.
    + apply earliestb_sound. vm_compute. reflexivity.
Defined.

(** C6, as the specification states it, fails.  A response with no fence
    holds a match clause through a return clause, and the extractor
    returns the text up to a semicolon that comes first, which is neither
    the span through the return keyword nor the span through the return
    clause.  And a response wraps a query in a fenced block, after another
    fenced block, and the extractor returns the contents of that other
    block.  And the letters count, not the keywords: a response whose
    prose holds the word matches before the query, and a query whose
    condition names a property returned, both have a match clause
    through a return clause, and the extractor returns a span that
    starts inside the prose, or one that stops inside the property
    name. *)
Lemma extract_stops_at_the_semicolon :
  (contains fence semicolon_inside = false /\
   semicolon_inside
   = [] ++ py "MATCH" ++ py " (n) WHERE n.name = 'a;b' " ++ py "RETURN" ++ py " n" /\
   extract_cypher_from_response semicolon_inside
   = Ok (py "MATCH (n) WHERE n.name = 'a;") /\
   extract_cypher_from_response semicolon_inside
   <> Ok (strip (py "MATCH" ++ py " (n) WHERE n.name = 'a;b' " ++ py "RETURN")) /\
   extract_cypher_from_response semicolon_inside <> Ok (strip semicolon_inside)) /\
  (schema_then_query
   = (py "Schema: " ++ fence ++ py "(:Book)" ++ fence ++ py " Query: ")
     ++ fence ++ (py "cypher" ++ py " MATCH (b:Book) RETURN b") ++ fence ++ [] /\
   extract_cypher_from_response schema_then_query = Ok (py "(:Book)") /\
   extract_cypher_from_response schema_then_query
   <> Ok (strip (py " MATCH (b:Book) RETURN b"))) /\
  (contains fence matches_in_prose = false /\
   matches_in_prose
   = py "This query matches all books: " ++ py "MATCH" ++ py " (b:Book) "
     ++ py "RETURN" ++ py " b.title" /\
   extract_cypher_from_response matches_in_prose
   = Ok (py "matches all books: MATCH (b:Book) RETURN") /\
   extract_cypher_from_response matches_in_prose
   <> Ok (strip (py "MATCH" ++ py " (b:Book) " ++ py "RETURN")) /\
   contains fence returned_in_condition = false /\
   returned_in_condition
   = [] ++ py "MATCH" ++ py " (b:Book) WHERE b.returned = true "
     ++ py "RETURN" ++ py " b.title" /\
   extract_cypher_from_response returned_in_condition
   = Ok (py "MATCH (b:Book) WHERE b.return") /\
   extract_cypher_from_response returned_in_condition
   <> Ok (strip (py "MATCH" ++ py " (b:Book) WHERE b.returned = true "
                 ++ py "RETURN"))).
Proof.
  repeat split; try reflexivity; vm_compute; discriminate.
Qed.

(** C1, on the notebook.  The first query fails, the repair call returns a
    validated query, and the next thing the loop does is ask for a new
    generation; the statement executed next is the newly generated one.
    The repaired query is never handed to the database. *)
Theorem repaired_query_is_regenerated :
  exists l tr analysis,
    session no_rendering no_repr repairing question schema None []
      = Some (Answered second_query [[(py "b", py "Emma")]] analysis, l, tr) /\
    firstn 5 tr =
      [ LLMCall (first_prompt question schema)
                (Ok (in_fence "MATCH (b:Book) RETURN b.titel"));
        DBQuery first_query (Raise (ServiceError db_error));
        LLMCall (improvement_prompt first_query db_error schema)
                (Ok (in_fence "MATCH (b:Book) RETURN b.title"));
        LLMCall (generation_prompt question schema
                   (Some (attempt_record 1 first_query db_error)))
                (Ok (in_fence "MATCH (b:Book) RETURN b LIMIT 20"));
        DBQuery second_query (Ok [[(py "b", py "Emma")]]) ] /\
    repaired (Ok (in_fence "MATCH (b:Book) RETURN b.title")) = Some repaired_query /\
    executed tr = [first_query; second_query] /\
    ~ In repaired_query (executed tr).
Proof.
  eexists _, _, _. split; [vm_compute; reflexivity|].
  split; [vm_compute; reflexivity|]. split; [vm_compute; reflexivity|].
  split; [reflexivity|].
  intros [H | [H | []]]; vm_compute in H; discriminate.
Qed.

End Properties.

(* ================================================================== *)
(** * Further properties of the notebook's functions *)

Import Scenario.

Section MoreOnTheExtractor.

Lemma substring_refl (s : str) : substring s s.
Proof. exists [], []. rewrite app_nil_r. reflexivity. Qed.

Lemma substring_nil (s : str) : substring [] s.
Proof. exists [], s. reflexivity. Qed.

Lemma substring_trans (a b c : str) : substring a b -> substring b c -> substring a c.
Proof.
  intros [x [y ->]] [u [v ->]]. exists (u ++ x), (y ++ v).
  rewrite <- !app_assoc. reflexivity.
Qed.

Lemma substring_suffix (g p q : str) : substring g q -> substring g (p ++ q).
Proof.
  intros [a [c ->]]. exists (p ++ a), c. rewrite <- app_assoc. reflexivity.
Qed.

Lemma strip_substring (s : str) : substring (strip s) s.
Proof. destruct (strip_split s) as [l [r [E _]]]. exists l, r. exact E. Qed.

(** A match moves forward in the subject, and the text of the group, once
    set, is a piece of the subject. *)
Lemma run_moves_forward (r : regex) :
  forall st st',
    In st' (run r st) ->
    (exists x, rest st = x ++ rest st') /\
    (forall g, grp st' = Some g -> grp st = Some g \/ substring g (rest st)).
Proof.
  induction r as [ | c | | | r1 IH1 r2 IH2 | r1 IH1 r2 IH2 | r IH | c | c | c
                   | r IH | r IH ]; intros st st' H.
  - destruct H as [<- | []]. split; [exists []; reflexivity | auto].
  - cbn [run] in H. destruct (rest st) as [|x s'] eqn:R; [destruct H|].
    destruct (ci_eqb x c); [|destruct H]. destruct H as [<- | []].
    split; [exists [x]; reflexivity | auto].
  - cbn [run] in H. destruct (at_boundary _ _); [|destruct H].
    destruct H as [<- | []]. split; [exists []; reflexivity | auto].
  - cbn [run] in H. destruct (rest st) eqn:R; [|destruct H].
    destruct H as [<- | []]. split; [exists []; symmetry; exact R | auto].
  - rewrite run_seq in H. apply in_flat_map in H. destruct H as [st1 [H1 H2]].
    destruct (IH1 _ _ H1) as [[x Ex] G1]. destruct (IH2 _ _ H2) as [[y Ey] G2].
    split.
    + exists (x ++ y). rewrite Ex, Ey, <- app_assoc. reflexivity.
    + intros g Hg. destruct (G2 g Hg) as [Hg1 | Hs].
      * apply G1, Hg1.
      * right. rewrite Ex. apply substring_suffix, Hs.
  - rewrite run_alt in H. apply in_app_or in H. destruct H; auto.
  - rewrite run_opt in H. apply in_app_or in H. destruct H as [H | [<- | []]]; auto.
    split; [exists []; reflexivity | auto].
  - destruct st as [b s g0]. rewrite run_star in H. apply in_rev in H.
    destruct (in_spans _ _ _ _ _ H) as [ws [E [_ ->]]].
    split; [exists ws; exact E | auto].
  - destruct st as [b s g0]. cbn [run prev rest grp] in H. apply in_rev in H.
    destruct (in_tl_spans _ _ _ _ _ H) as [ws [_ [E [_ ->]]]].
    split; [exists ws; exact E | auto].
  - destruct st as [b s g0]. rewrite run_lazy in H.
    destruct (in_spans _ _ _ _ _ H) as [ws [E [_ ->]]].
    split; [exists ws; exact E | auto].
  - rewrite run_noncap in H. auto.
  - rewrite run_group in H. apply in_map_iff in H. destruct H as [st0 [<- H0]].
    destruct (IH _ _ H0) as [[x Ex] _]. cbn [rest grp]. split; [exists x; exact Ex|].
    intros g Hg. injection Hg as <-. right. rewrite Ex, consumed_app.
    exists [], (rest st0). reflexivity.
Qed.

Lemma findall_head_substring (r : regex) (s m : str) (l : list str) :
  re_findall r s = m :: l -> substring m s.
Proof.
  unfold re_findall. cbn [findall_from].
  destruct (search_from r None s) as [[i st]|] eqn:S; [|discriminate].
  intros H. injection H as <- _.
  destruct (search_from_some _ _ _ _ _ S) as [p [q [l0 [E [_ R]]]]].
  assert (Hin : In st (run r (MState (prev_after None p) q None)))
    by (rewrite R; left; reflexivity).
  destruct (run_moves_forward r _ _ Hin) as [_ G]. unfold group1.
  destruct (grp st) as [g|] eqn:Eg; [|apply substring_nil].
  destruct (G g eq_refl) as [Hn | Hs]; [discriminate|].
  rewrite E. apply substring_suffix, Hs.
Qed.

(** X1.  Whatever the extractor returns is a piece of the response, taken
    as it stands, with no white space around it: the extractor cuts and
    trims, it writes nothing of its own. *)
Theorem extract_returns_a_trimmed_piece (response_text v : str) :
  extract_cypher_from_response response_text = Ok v ->
  substring v response_text /\ trimmed v.
Proof.
  unfold extract_cypher_from_response.
  destruct (re_findall cypher_pattern response_text) as [|m l] eqn:F1.
  - destruct (re_findall match_pattern response_text) as [|m l] eqn:F2.
    + destruct (existsb _ _); [|discriminate]. intros H. injection H as <-.
      split; [apply strip_substring | apply strip_trimmed].
    + intros H. injection H as <-. split; [|apply strip_trimmed].
      eapply substring_trans; [apply strip_substring|].
      eapply findall_head_substring, F2.
  - intros H. injection H as <-. split; [|apply strip_trimmed].
    eapply substring_trans; [apply strip_substring|].
    eapply findall_head_substring, F1.
Qed.

Lemma extract_returns_a_trimmed_piece_witness :
  substring (py "MATCH (n) RETURN") (py "Try this: MATCH (n) RETURN n.name ") /\
  trimmed (py "MATCH (n) RETURN").
Proof.
  apply (extract_returns_a_trimmed_piece (py "Try this: MATCH (n) RETURN n.name ")).
  vm_compute. reflexivity.
Defined.

Lemma spans_any_end (b : option ascii) (q : str) (g : option str) :
  In (MState (prev_after b q) [] g) (spans CAny b q g).
Proof.
  revert b. induction q as [|x q IH]; intros b.
  - left. reflexivity.
  - cbn [spans in_class]. right. rewrite prev_after_cons. apply IH.
Qed.

Lemma flat_map_in_nonempty {A B} (f : A -> list B) (l : list A) (x : A) :
  In x l -> f x <> [] -> flat_map f l <> [].
Proof.
  intros Hin Hf E. apply Hf.
  destruct (f x) as [|y ys] eqn:Ef; [reflexivity|].
  assert (Hy : In y (flat_map f l)).
  { apply in_flat_map. exists x. split; [exact Hin|]. rewrite Ef. left. reflexivity. }
  rewrite E in Hy. destruct Hy.
Qed.

Lemma run_match_pattern_some (b : option ascii) (m q : str) :
  same_letters m (py "MATCH") ->
  run match_pattern (MState b (m ++ q) None) <> [].
Proof.
  intros Hm.
  rewrite match_pattern_eq, run_group, run_seq, (run_lits_same _ _ _ b None Hm).
  cbn [flat_map]. rewrite app_nil_r, run_seq, run_lazy.
  intros E. apply map_eq_nil in E. revert E.
  apply (flat_map_in_nonempty _ _ _ (spans_any_end _ q None)).
  rewrite run_terminator. cbn [starts_ci starts_with py list_ascii_of_string app].
  discriminate.
Qed.

(** X2.  A response that holds the word MATCH, in any letter case, is
    never refused: the fallback pattern reads on to the end of the text
    if nothing stops it earlier. *)
Theorem match_keyword_is_always_extracted (p m q : str) :
  same_letters m (py "MATCH") ->
  exists v, extract_cypher_from_response (p ++ m ++ q) = Ok v.
Proof.
  intros Hm. unfold extract_cypher_from_response.
  destruct (re_findall cypher_pattern (p ++ m ++ q)) as [|m1 l1]; [|eauto].
  destruct (search_from match_pattern None (p ++ m ++ q)) as [[i st]|] eqn:S.
  - destruct (re_findall_head _ _ _ _ S) as [l F]. rewrite F. eauto.
  - exfalso. apply (run_match_pattern_some (prev_after None p) m q Hm).
    apply (proj1 (search_from_none _ _ _) S p (m ++ q) eq_refl).
Qed.

Lemma match_keyword_is_always_extracted_witness :
  exists v, extract_cypher_from_response
              (py "no fence, no return: " ++ py "Match" ++ py " (n)") = Ok v.
Proof.
  apply (match_keyword_is_always_extracted
           (py "no fence, no return: ") (py "Match") (py " (n)")).
  reflexivity.
Defined.

End MoreOnTheExtractor.

Section MoreOnTheValidator.

Lemma find_app {A} (f : A -> bool) (l1 l2 : list A) :
  find f (l1 ++ l2) =
  match find f l1 with Some x => Some x | None => find f l2 end.
Proof.
  induction l1 as [|a l1 IH]; simpl; [reflexivity|].
  destruct (f a); [reflexivity | exact IH].
Qed.

(** The search through the list never gets to its last pattern with a
    match: a text with DETACH DELETE holds DELETE as a word. *)
Lemma find_destructive (s : str) :
  find (fun p => found p s) destructive_patterns
  = find (fun p => found p s) (map word_pattern denylist).
Proof.
  rewrite destructive_patterns_eq, find_app.
  destruct (find (fun p => found p s) (map word_pattern denylist)) eqn:F;
    [reflexivity|].
  cbn [find]. destruct (found detach_delete_pattern s) eqn:D; [|reflexivity].
  exfalso. apply found_detach_delete, detach_delete_contains_delete in D.
  apply (found_word_pattern "DELETE") in D; [|reflexivity|discriminate].
  assert (Hin : In (word_pattern "DELETE") (map word_pattern denylist))
    by (apply in_map; simpl; auto).
  pose proof (find_none _ _ F _ Hin) as N. cbv beta in N. congruence.
Qed.

(** X3.  When the validator refuses a query, the error names one of the
    six single-word patterns; the pattern for DETACH DELETE, the last of
    the list, is never the one reported. *)
Theorem refusal_names_a_single_word_pattern (s : str) (e : exn) :
  validate_cypher_query s = Raise e ->
  exists kw, In kw denylist /\
             found (word_pattern kw) s = true /\
             e = ValueError (blocked_message (word_pattern kw)).
Proof.
  unfold validate_cypher_query. rewrite find_destructive.
  destruct (find (fun p => found p s) (map word_pattern denylist)) as [p|] eqn:F.
  - intros H. injection H as <-. apply find_some in F. destruct F as [Hin Hf].
    apply in_map_iff in Hin. destruct Hin as [kw [<- Hin]]. eauto.
  - destruct (negb _); discriminate.
Qed.

Lemma refusal_names_a_single_word_pattern_witness :
  exists kw, In kw denylist /\
             found (word_pattern kw) (py "MATCH (n) DETACH DELETE n") = true /\
             ValueError (py "Blocked potentially destructive operation: \bDELETE\b")
             = ValueError (blocked_message (word_pattern kw)).
Proof.
  apply (refusal_names_a_single_word_pattern (py "MATCH (n) DETACH DELETE n")).
  vm_compute. reflexivity.
Defined.

(** ** Letter case *)














(** ** Blank input *)

Lemma spaces_not_denylisted (s : str) : forallb is_space s = true -> ~ denylisted s.
Proof.
  intros F D.
  assert (K : forall p x q, s = p ++ x ++ q -> forallb is_word x = true -> x <> [] -> False).
  { intros p x q -> Wx Nx. rewrite !forallb_app in F.
    apply andb_true_iff in F. destruct F as [_ F].
    apply andb_true_iff in F. destruct F as [F _].
    destruct x as [|c x]; [congruence|]. simpl in F, Wx.
    apply andb_true_iff in F. apply andb_true_iff in Wx.
    destruct F as [F _]. destruct Wx as [Wx _].
    rewrite (space_not_word c F) in Wx. discriminate. }
  destruct D as [[kw [Hin [p [x [q [E [Sx _]]]]]]] | D].
  - destruct (denylist_letters kw Hin) as [L N]. apply (K p x q E).
    + eapply same_letters_words; eauto.
    + intros Ex. apply same_letters_length in Sx. rewrite Ex in Sx.
      destruct (py kw); [congruence | discriminate].
  - destruct D as [p [x [ws [y [q [E [Sx _]]]]]]]. apply (K p x (ws ++ y ++ q) E).
    + eapply same_letters_words; [|exact Sx]. reflexivity.
    + intros Ex. apply same_letters_length in Sx. rewrite Ex in Sx. discriminate.
Qed.

Lemma drop_while_all (p : ascii -> bool) (s : str) :
  forallb p s = true -> drop_while p s = [].
Proof.
  induction s as [|c s IH]; [reflexivity|]. simpl. intros H.
  apply andb_true_iff in H. destruct H as [Hc Hs]. rewrite Hc. apply IH, Hs.
Qed.

Lemma strip_spaces (s : str) : forallb is_space s = true -> strip s = [].
Proof.
  intros H. unfold strip, rstrip, lstrip. rewrite (drop_while_all _ _ H). reflexivity.
Qed.

(** X5.  A query that is empty or holds only white space is not refused:
    the validator returns the bare delimiter. *)
Theorem blank_query_becomes_the_delimiter (s : str) :
  forallb is_space s = true -> validate_cypher_query s = Ok [semicolon].
Proof.
  intros H. rewrite (validate_ok s (spaces_not_denylisted s H)).
  rewrite (strip_spaces s H). reflexivity.
Qed.

Lemma blank_query_becomes_the_delimiter_witness :
  validate_cypher_query (py "   ") = Ok [semicolon].
Proof. apply (blank_query_becomes_the_delimiter (py "   ")). reflexivity. Defined.

Lemma spaces_no_fence (ws rest0 : str) :
  forallb is_space ws = true -> starts_with fence rest0 = true ->
  earliest (starts_with fence) ws rest0.
Proof.
  intros F H. split; [exact H|]. intros a b -> Nb.
  rewrite forallb_app in F. apply andb_true_iff in F. destruct F as [_ F].
  destruct b as [|c b]; [congruence|]. simpl in F.
  apply andb_true_iff in F. destruct F as [Fc _].
  cbn [app fence py list_ascii_of_string starts_with].
  destruct (Ascii.eqb "`" c) eqn:E; [|reflexivity].
  apply Ascii.eqb_eq in E. subst c. discriminate.
Qed.

Lemma spaces_untagged (ws : str) : forallb is_space ws = true -> untagged ws = ws.
Proof.
  intros F. unfold untagged. destruct ws as [|c ws]; [reflexivity|].
  simpl in F. apply andb_true_iff in F. destruct F as [Fc _].
  assert (H : forall w0 w, is_letter w0 = true -> starts_ci (w0 :: w) (c :: ws) = false).
  { intros w0 w L. cbn [starts_ci].
    destruct (Ascii.eqb (lower c) (lower w0)) eqn:E; [|reflexivity].
    apply Ascii.eqb_eq in E.
    pose proof (same_letter_word c w0 L E) as W.
    rewrite (space_not_word c Fc) in W. discriminate. }
  change (py "cypher") with ("c"%char :: py "ypher").
  change (py "neo4j") with ("n"%char :: py "eo4j").
  rewrite !H by reflexivity. reflexivity.
Qed.

(** X6.  A response whose first fenced block is blank passes the
    extractor and the validator together: the query that comes out is the
    bare delimiter. *)
Theorem blank_fenced_block_becomes_the_delimiter (pre ws post : str) :
  earliest (starts_with fence) pre (fence ++ ws ++ fence ++ post) ->
  forallb is_space ws = true ->
  checked (Ok (pre ++ fence ++ ws ++ fence ++ post)) = Ok [semicolon] /\
  generated (Ok (pre ++ fence ++ ws ++ fence ++ post)) = Ok [semicolon].
Proof.
  intros Hpre Hws.
  assert (C : checked (Ok (pre ++ fence ++ ws ++ fence ++ post)) = Ok [semicolon]).
  { unfold checked. rewrite (extract_first_fence pre ws post Hpre).
    - rewrite (spaces_untagged ws Hws), (strip_spaces ws Hws). reflexivity.
    - apply spaces_no_fence; [exact Hws | reflexivity]. }
  split; [exact C|]. unfold generated. rewrite C. reflexivity.
Qed.

Lemma blank_fenced_block_becomes_the_delimiter_witness :
  checked (Ok (py "Here: " ++ fence ++ py "  " ++ fence ++ py " MATCH (n) RETURN n"))
  = Ok [semicolon] /\
  generated (Ok (py "Here: " ++ fence ++ py "  " ++ fence ++ py " MATCH (n) RETURN n"))
  = Ok [semicolon].
Proof.
  apply (blank_fenced_block_becomes_the_delimiter (py "Here: ") (py "  ")
           (py " MATCH (n) RETURN n")).
  - apply earliestb_sound. vm_compute. reflexivity.
  - reflexivity.
Defined.

End MoreOnTheValidator.

Section MoreOnTheLoop.

Variable to_string : nat -> list row -> str.
Variable repr_columns : list str -> str.
Variable w : World.

Lemma numbered_app (k : nat) (records : list str) (query error_msg : str) :
  numbered k records ->
  numbered k (records ++ [attempt_record (k + length records) query error_msg]).
Proof.
  revert k. induction records as [|r records IH]; intros k H.
  - simpl. rewrite Nat.add_0_r. split; [eauto | exact I].
  - destruct H as [Hr H]. split; [exact Hr|].
    cbn [length]. rewrite <- Nat.add_succ_comm. apply IH, H.
Qed.

Lemma filter_db_app (a b : trace) : filter is_db (a ++ b) = filter is_db a ++ filter is_db b.
Proof. apply filter_app. Qed.

Lemma on_exception_reports (cypher0 : option str) (schema : str) (l : locals)
  (e : exn) (tr : trace) :
  1 <= attempt l <= max_attempts ->
  count is_llm tr + 1 <= 3 * attempt l ->
  (displays_quietly w ->
   count is_llm tr + 1 <= 2 * attempt l /\
   forallb is_failed_db (filter is_db tr) = true) ->
  numbered 1 (previous_attempts l) ->
  length (previous_attempts l) + 1 = attempt l ->
  (cypher l = None ->
   cypher0 = None /\ attempt l = 1 /\ exists p a, tr = [LLMCall p a]) ->
  failed_with w tr e (cypher l) ->
  match on_exception w schema l e tr with
  | (Continue l', tr') => pass_invariant w cypher0 l' tr' /\ attempt l' = S (attempt l)
  | (Break o l', tr') => session_report w cypher0 o l' tr'
  end.
Proof.
  intros Ha Hllm Hq Hn Hp Hfresh Hfail. rewrite on_exception_eq.
  unfold max_attempts in *.
  destruct (attempt l <? 3) eqn:E.
  - apply Nat.ltb_lt in E. destruct (cypher l) as [c|] eqn:C.
    + cbn zeta.
      set (prompt := improvement_prompt c (exn_str e) schema).
      set (answer := llm w tr prompt).
      assert (Hc : (if truthy_opt (repaired answer) then repaired answer else Some c)
                   <> None).
      { destruct (repaired answer) as [v|]; cbn [truthy_opt];
          [destruct (truthy v)|]; discriminate. }
      assert (L1 : count is_llm (tr ++ [LLMCall prompt answer]) = count is_llm tr + 1)
        by (rewrite count_app; reflexivity).
      assert (D1 : filter is_db (tr ++ [LLMCall prompt answer]) = filter is_db tr)
        by (rewrite filter_db_app; apply app_nil_r).
      split; [|cbn [attempt]; lia].
      unfold pass_invariant, max_attempts. cbn [attempt previous_attempts cypher].
      rewrite L1, D1, length_app. cbn [length].
      split; [lia|]. split; [lia|]. split.
      { intros Q. destruct (Hq Q) as [Q1 Q2]. split; [lia | exact Q2]. }
      split.
      * replace (attempt l) with (1 + length (previous_attempts l)) by lia.
        apply numbered_app, Hn.
      * split; [lia|]. intros H. contradiction.
    + destruct (Hfresh eq_refl) as [H0 [H1 [p [a Etr]]]].
      unfold session_report, max_attempts.
      split; [lia|]. split; [intros Q; destruct (Hq Q); lia|].
      split; [lia|]. split; [assumption|].
      repeat split; try assumption.
      * destruct (previous_attempts l); [reflexivity | simpl in Hp; lia].
      * destruct Hfail as [[tr0 [q [_ Hb]]] | [[tr0 [p' [a' [Et G]]]]
                          | [tr0 [q [rows [an [ans [_ [Hb _]]]]]]]]];
          [discriminate | | discriminate].
        rewrite Etr in Et. destruct tr0 as [|x tr0].
        -- simpl in Et. injection Et as <- <-. exists p, a, e. auto.
        -- destruct tr0; discriminate.
  - apply Nat.ltb_ge in E. unfold session_report, max_attempts.
    split; [lia|]. split; [intros Q; destruct (Hq Q); lia|].
    split; [lia|]. split; [assumption|].
    split; [intros Q; apply (Hq Q)|]. exists e. auto.
Qed.

Lemma iteration_reports (cypher0 : option str) (question schema : str)
  (l : locals) (tr : trace) :
  pass_invariant w cypher0 l tr -> attempt l <= max_attempts ->
  match iteration to_string repr_columns w question schema l tr with
  | (Continue l', tr') => pass_invariant w cypher0 l' tr' /\ attempt l' = S (attempt l)
  | (Break o l', tr') => session_report w cypher0 o l' tr'
  end.
Proof.
  intros [Ha [Hllm [Hq [Hn [Hp Hfresh]]]]] _. rewrite iteration_eq. cbn zeta.
  set (prompt := generation_prompt _ _ _).
  set (answer := llm w tr prompt).
  set (tr1 := tr ++ [LLMCall prompt answer]).
  assert (L1 : count is_llm tr1 = count is_llm tr + 1)
    by (unfold tr1; rewrite count_app; reflexivity).
  assert (D1 : filter is_db tr1 = filter is_db tr)
    by (unfold tr1; rewrite filter_db_app; apply app_nil_r).
  destruct (generated answer) as [c|e] eqn:G.
  - set (tr2 := tr1 ++ [DBQuery c (db w tr1 c)]).
    assert (L2 : count is_llm tr2 = count is_llm tr + 1)
      by (unfold tr2; rewrite count_app, L1; cbn; lia).
    assert (D2 : filter is_db tr2 = filter is_db tr ++ [DBQuery c (db w tr1 c)])
      by (unfold tr2; rewrite filter_db_app, D1; reflexivity).
    destruct (db w tr1 c) as [results|e] eqn:R.
    + destruct (provide_intelligent_answer_total to_string repr_columns w question
                  (match results with [] => [] | _ :: _ => results end) c tr2)
        as [a [tr3 [E3 H3]]].
      rewrite E3.
      assert (T3 : exists analysis,
                 tr3 = tr1 ++ DBQuery c (Ok results) :: analysis /\
                 filter is_db analysis = [] /\ length analysis <= 1 /\
                 count is_llm tr3 = count is_llm tr + 1 + length analysis).
      { destruct H3 as [-> | [p [r ->]]].
        - exists []. repeat split; auto. rewrite L2. cbn. lia.
        - exists [LLMCall p r]. split; [unfold tr2; rewrite <- app_assoc; reflexivity|].
          repeat split; auto. rewrite count_app, L2. reflexivity. }
      destruct T3 as [analysis [Etr3 [Dn [Ln Lc]]]].
      destruct (display_markdown w a tr3) as [u|e] eqn:S.
      * destruct u. unfold session_report, max_attempts in *.
        cbn [attempt previous_attempts cypher].
        split; [lia|]. split; [intros Q; destruct (Hq Q); lia|].
        split; [lia|]. split; [assumption|].
        exists tr1, analysis. repeat split; try assumption.
        intros Q. rewrite D1. apply (Hq Q).
      * unfold max_attempts in *.
        apply (on_exception_reports cypher0 schema
                 (Locals (attempt l) (previous_attempts l) (Some c)) e tr3);
          cbn [attempt previous_attempts cypher]; unfold max_attempts;
          try lia; try assumption.
        -- intros Q. rewrite (Q a tr3) in S. discriminate.
        -- discriminate.
        -- right. right. exists tr1, c, results, analysis, a. auto.
    + unfold max_attempts in *.
      apply (on_exception_reports cypher0 schema
               (Locals (attempt l) (previous_attempts l) (Some c)) e tr2);
        cbn [attempt previous_attempts cypher]; unfold max_attempts;
        try lia; try assumption.
      * intros Q. destruct (Hq Q) as [Q1 Q2]. split; [lia|].
        rewrite D2, forallb_app, Q2. reflexivity.
      * discriminate.
      * left. exists tr1, c. auto.
  - unfold max_attempts in *.
    apply (on_exception_reports cypher0 schema l e tr1); unfold max_attempts;
      try lia; try assumption.
    + intros Q. destruct (Hq Q) as [Q1 Q2]. split; [lia|]. rewrite D1. exact Q2.
    + intros C. destruct (Hfresh C) as [H0 [H1 Et]].
      repeat split; try assumption. exists prompt, answer. unfold tr1. rewrite Et.
      reflexivity.
    + right. left. exists tr, prompt, answer. auto.
Qed.

(** Every session ends in [session_report]. *)
Lemma session_reports (question schema : str) (cypher0 : option str) :
  exists o l tr,
    session to_string repr_columns w question schema cypher0 []
      = Some (o, l, tr) /\ session_report w cypher0 o l tr.
Proof.
  unfold session.
  apply (retry_loop_rule to_string repr_columns w question schema
           (pass_invariant w cypher0) (session_report w cypher0)).
  - apply iteration_reports.
  - intros l tr [[_ Ha] _] Hgt. lia.
  - unfold pass_invariant, max_attempts. cbn. repeat split; try lia; auto.
  - cbn. unfold max_attempts. lia.
Qed.

End MoreOnTheLoop.

Section MoreOnTheSession.

Variable to_string : nat -> list row -> str.
Variable repr_columns : list str -> str.
Variable w : World.

(** X7.  The repair function never raises, whatever the service does: it
    makes one call, and returns either nothing or a query that came out
    of the validator (free of the keywords, ending with the delimiter,
    not empty). *)
Theorem repair_never_raises (original error_message schema : str) (tr : trace) :
  exists improved answer,
    improve_cypher_with_context w original error_message schema tr
    = (Ok improved,
       tr ++ [LLMCall (improvement_prompt original error_message schema) answer]) /\
    (forall e, answer = Raise e -> improved = None) /\
    (forall v, improved = Some v ->
       validated v /\ ~ denylisted v /\ endswith_char semicolon v = true /\
       truthy v = true).
Proof.
  rewrite improve_cypher_with_context_eq. cbn zeta.
  eexists _, _. split; [reflexivity|]. split.
  - intros e ->. reflexivity.
  - intros v Hv. unfold repaired in Hv.
    destruct (checked _) as [v'|] eqn:C; [|discriminate]. injection Hv as ->.
    destruct (checked_validated _ _ C) as [raw Hraw].
    destruct (validated_shape raw v Hraw) as [N [_ E]].
    repeat split; try assumption; [exists raw; exact Hraw|].
    destruct v; [discriminate E | reflexivity].
Qed.

(** X8.  The generation function makes one call and either returns a
    query that came out of the validator or raises a [ValueError] whose
    message is the fixed prefix followed by the message of what went
    wrong, be it the service, the extractor or the validator. *)
Theorem generation_validates_or_raises (question schema : str)
  (previous : option str) (tr : trace) :
  exists answer,
    snd (generate_enhanced_cypher w question schema previous tr)
    = tr ++ [LLMCall (generation_prompt question schema previous) answer] /\
    match fst (generate_enhanced_cypher w question schema previous tr) with
    | Ok v => validated v /\ ~ denylisted v /\ endswith_char semicolon v = true
    | Raise e =>
        exists cause,
          checked answer = Raise cause /\
          e = ValueError (py "Failed to generate valid Cypher query: "
                          ++ exn_str cause)
    end.
Proof.
  rewrite generate_enhanced_cypher_eq. cbn zeta. cbn [fst snd].
  eexists. split; [reflexivity|]. unfold generated.
  destruct (checked _) as [v|cause] eqn:C.
  - destruct (checked_validated _ _ C) as [raw Hraw].
    destruct (validated_shape raw v Hraw) as [N [_ E]].
    repeat split; try assumption. exists raw. exact Hraw.
  - exists cause. auto.
Qed.

(** X9.  Every pass of the loop asks for a new generation first, and the
    statement it hands to the database, if any, is the query that this
    generation produced: whatever [cypher] held when the pass began (a
    repaired query, the query of an earlier pass or question) is not
    executed. *)
Theorem every_pass_executes_what_it_generated (question schema : str)
  (l : locals) (tr : trace) :
  exists later,
    snd (iteration to_string repr_columns w question schema l tr)
    = tr ++ LLMCall (generation_prompt question schema
                       (context_of (previous_attempts l)))
                    (llm w tr (generation_prompt question schema
                                 (context_of (previous_attempts l))))
            :: later /\
    executed later
    = match generated (llm w tr (generation_prompt question schema
                                   (context_of (previous_attempts l)))) with
      | Ok c => [c]
      | Raise _ => []
      end.
Proof. apply iteration_executes_the_generated. Qed.

(** X10.  When a generation fails below the attempt ceiling while a query
    is bound, the pass goes on: the record of the attempt and the repair
    request both name the bound query, and the attempt counter moves on. *)
Theorem failed_generation_repairs_the_bound_query (question schema : str)
  (l : locals) (tr : trace) (c : str) (e : exn) :
  cypher l = Some c -> attempt l < max_attempts ->
  generated (llm w tr (generation_prompt question schema
                         (context_of (previous_attempts l)))) = Raise e ->
  exists a a',
    iteration to_string repr_columns w question schema l tr
    = (Continue
         (Locals (attempt l + 1)
            (previous_attempts l ++ [attempt_record (attempt l) c (exn_str e)])
            (if truthy_opt (repaired a') then repaired a' else Some c)),
       (tr ++ [LLMCall (generation_prompt question schema
                          (context_of (previous_attempts l))) a])
       ++ [LLMCall (improvement_prompt c (exn_str e) schema) a']).
Proof.
  intros Hc Ha Hg. rewrite iteration_eq. cbn zeta. rewrite Hg, on_exception_eq.
  apply Nat.ltb_lt in Ha. rewrite Ha, Hc. cbn zeta. eexists _, _. reflexivity.
Qed.



(** X13.  A session gives up with "no initial query" only when nothing
    was bound to [cypher] before it and its first generation failed: the
    attempt counter is still 1, nothing was recorded, the generation call
    is the only call made, and the error text is that of the failed
    generation. *)
Theorem no_initial_query_means_a_fresh_start
  (question schema : str) (cypher0 : option str)
  (error_msg : str) (l : locals) (tr : trace) :
  session to_string repr_columns w question schema cypher0 []
  = Some (NoInitialQuery error_msg, l, tr) ->
  cypher0 = None /\ attempt l = 1 /\ previous_attempts l = [] /\
  exists p a e, tr = [LLMCall p a] /\ generated a = Raise e /\
                error_msg = exn_str e.
Proof.
  intros H.
  destruct (session_reports to_string repr_columns w question schema cypher0)
    as [o [l' [tr' [E [_ [_ [_ [_ Ho]]]]]]]].
  rewrite H in E. injection E as <- <- <-. exact Ho.
Qed.

(** X14.  The records of a session are numbered 1, 2, ... in the order
    they were made. *)
Theorem records_are_numbered_in_order
  (question schema : str) (cypher0 : option str) :
  exists o l tr,
    session to_string repr_columns w question schema cypher0 [] = Some (o, l, tr) /\
    numbered 1 (previous_attempts l).
Proof.
  destruct (session_reports to_string repr_columns w question schema cypher0)
    as [o [l [tr [E [_ [_ [_ [Hn _]]]]]]]].
  exists o, l, tr. auto.
Qed.

(** X15.  The error text of a final failure is the message of the last
    thing that failed.  Either the last event of the session is the
    failed execution of the query reported as last attempted, or it is a
    generation call that produced no query, or the query reported as last
    attempted was executed, at most the analysis call followed, and the
    display of the answer raised the error. *)
Theorem final_failure_reports_the_last_error
  (question schema : str) (cypher0 : option str)
  (n : nat) (error_msg : str) (last : option str) (l : locals) (tr : trace) :
  session to_string repr_columns w question schema cypher0 []
  = Some (FinalFailure n error_msg last, l, tr) ->
  exists e, error_msg = exn_str e /\
    ((exists tr0 q, tr = tr0 ++ [DBQuery q (Raise e)] /\ last = Some q) \/
     (exists tr0 p a, tr = tr0 ++ [LLMCall p a] /\ generated a = Raise e) \/
     (exists tr0 q rows analysis answer,
        tr = tr0 ++ DBQuery q (Ok rows) :: analysis /\ last = Some q /\
        filter is_db analysis = [] /\ length analysis <= 1 /\
        display_markdown w answer tr = Raise e)).
Proof.
  intros H.
  destruct (session_reports to_string repr_columns w question schema cypher0)
    as [o [l' [tr' [E [_ [_ [_ [_ Ho]]]]]]]].
  rewrite H in E. injection E as <- <- <-. destruct Ho as [_ Ho]. exact Ho.
Qed.

(** Nothing is loaded when no text names a file and fetching or reading
    always works. *)
Lemma displays_quietly_without_loading :
  (forall tr text, load w tr text = Ok tt) -> displays_quietly w.
Proof.
  intros H text tr. unfold display_markdown. rewrite H.
  destruct (starts_with _ _); [reflexivity|].
  destruct (path_exists _ _ _); reflexivity.
Qed.

End MoreOnTheSession.

Lemma failed_generation_repairs_the_bound_query_witness :
  exists a a',
    iteration no_rendering no_repr unreachable question schema
      (Locals 1 [] (Some first_query)) []
    = (Continue
         (Locals 2
            [attempt_record 1 first_query
               (py "Failed to generate valid Cypher query: connection refused")]
            (if truthy_opt (repaired a') then repaired a' else Some first_query)),
       ([] ++ [LLMCall (generation_prompt question schema None) a])
       ++ [LLMCall (improvement_prompt first_query
                      (py "Failed to generate valid Cypher query: connection refused")
                      schema) a']).
Proof.
  apply (failed_generation_repairs_the_bound_query
           no_rendering no_repr unreachable question schema
           (Locals 1 [] (Some first_query)) [] first_query
           (ValueError (py "Failed to generate valid Cypher query: connection refused"))).
  - reflexivity.
  - unfold max_attempts. cbn. lia.
  - reflexivity.
Defined.

Lemma no_initial_query_means_a_fresh_start_witness :
  @None str = None /\ attempt (Locals 1 [] None) = 1 /\
  previous_attempts (Locals 1 [] None) = [] /\
  exists p a e,
    [LLMCall (first_prompt question schema)
             (Raise (ServiceError (py "connection refused")))]
    = [LLMCall p a] /\ generated a = Raise e /\
    py "Failed to generate valid Cypher query: connection refused" = exn_str e.
Proof.
  apply (no_initial_query_means_a_fresh_start
           no_rendering no_repr unreachable question schema None).
  vm_compute. reflexivity.
Defined.

Lemma final_failure_reports_the_last_error_witness :
  exists l tr e,
    session no_rendering no_repr linking question schema None []
    = Some (FinalFailure 3 link_error (Some repaired_query), l, tr) /\
    link_error = exn_str e /\
    ((exists tr0 q, tr = tr0 ++ [DBQuery q (Raise e)] /\ Some repaired_query = Some q) \/
     (exists tr0 p a, tr = tr0 ++ [LLMCall p a] /\ generated a = Raise e) \/
     (exists tr0 q rows analysis answer,
        tr = tr0 ++ DBQuery q (Ok rows) :: analysis /\ Some repaired_query = Some q /\
        filter is_db analysis = [] /\ length analysis <= 1 /\
        display_markdown linking answer tr = Raise e)).
Proof.
  destruct (session no_rendering no_repr linking question schema None [])
    as [[[o l] tr]|] eqn:E; [|vm_compute in E; discriminate].
  assert (Ho : o = FinalFailure 3 link_error (Some repaired_query))
    by (vm_compute in E; injection E as <- _ _; reflexivity).
  subst o.
  destruct (final_failure_reports_the_last_error
              no_rendering no_repr linking question schema None
              3 link_error (Some repaired_query) l tr E) as [e [He Hf]].
  exists l, tr, e. auto.
Defined.


(** The bound of eight calls is reached: every pass generates a query,
    executes it, has the result analysed and fails to display the
    analysis. *)
Lemma eight_calls_when_no_answer_can_be_displayed :
  exists l tr,
    session no_rendering no_repr linking question schema None []
    = Some (FinalFailure 3 link_error (Some repaired_query), l, tr) /\
    count is_llm tr = 8 /\ count is_ok_db tr = 3 /\
    length (filter is_repair_request (prompts tr)) = 2 /\
    length (filter is_analysis_request (prompts tr)) = 3.
Proof.
  eexists _, _. split; [vm_compute; reflexivity|].
  repeat split; vm_compute; reflexivity.
Qed.

(** An answer that is the name of a file is read from the file; a text
    that only mentions the name, or an upper-case scheme, is shown. *)
Lemma display_loads_what_names_a_file :
  display_markdown beside_a_readme (py "README.md") []
  = Raise (ServiceError (py "invalid start byte")) /\
  display_markdown beside_a_readme (py "See README.md") [] = Ok tt /\
  display_markdown linking (py "HTTP is a protocol.") [] = Ok tt /\
  display_markdown linking (py "http is a protocol.") []
  = Raise (ServiceError link_error) /\
  exists l tr,
    session no_rendering no_repr beside_a_readme question schema None []
    = Some (FinalFailure 3 (py "invalid start byte") (Some repaired_query), l, tr) /\
    count is_ok_db tr = 3.
Proof.
  repeat split; try reflexivity.
  eexists _, _. split; vm_compute; reflexivity.
Qed.


Section MoreOnThePrompts.

Lemma join_holds_each (sep : str) (records : list str) (r : str) :
  In r records -> substring r (join sep records).
Proof.
  induction records as [|x records IH]; [intros []|].
  intros [<- | Hin].
  - destruct records as [|y records]; [apply substring_refl|].
    exists [], (sep ++ join sep (y :: records)). reflexivity.
  - destruct records as [|y records]; [destruct Hin|].
    change (join sep (x :: y :: records)) with (x ++ sep ++ join sep (y :: records)).
    apply substring_suffix, substring_suffix, IH, Hin.
Qed.

Lemma substring_nonempty (r s : str) : substring r s -> r <> [] -> truthy s = true.
Proof.
  intros [a [c ->]] Hr. destruct a; [|reflexivity].
  destruct r; [congruence | reflexivity].
Qed.

(** X16.  From the second attempt on the generation request carries the
    history: every record made so far stands in it word for word, and
    the request ends with the instruction to try a different approach. *)
Theorem generation_request_carries_the_records
  (question schema : str) (records : list str) (r : str) :
  In r records -> r <> [] ->
  substring r (generation_prompt question schema (context_of records)) /\
  exists before,
    generation_prompt question schema (context_of records)
    = before ++ py "Please try a different approach.".
Proof.
  intros Hin Hr. pose proof (join_holds_each [newline] records r Hin) as Hs.
  pose proof (substring_nonempty _ _ Hs Hr) as Ht.
  unfold generation_prompt, context_of.
  destruct records as [|x records]; [destruct Hin|].
  cbn [truthy_opt]. rewrite Ht. split.
  - apply substring_suffix, substring_suffix, substring_suffix, substring_suffix.
    destruct Hs as [a [c ->]]. exists a, (c ++ [newline] ++ py "Please try a different approach.").
    rewrite <- !app_assoc. reflexivity.
  - eexists. rewrite !app_assoc. reflexivity.
Qed.

Lemma generation_request_carries_the_records_witness :
  substring (attempt_record 1 first_query db_error)
    (generation_prompt question schema
       (context_of [attempt_record 1 first_query db_error])) /\
  exists before,
    generation_prompt question schema
      (context_of [attempt_record 1 first_query db_error])
    = before ++ py "Please try a different approach.".
Proof.
  apply (generation_request_carries_the_records question schema
           [attempt_record 1 first_query db_error]
           (attempt_record 1 first_query db_error)).
  - left. reflexivity.
  - discriminate.
Defined.

End MoreOnThePrompts.

Section MoreOnTheQuestionLoop.

Variable to_string : nat -> list row -> str.
Variable repr_columns : list str -> str.
Variable w : World.

Lemma iteration_continue (question schema : str) (l l' : locals) (tr tr' : trace) :
  iteration to_string repr_columns w question schema l tr = (Continue l', tr') ->
  attempt l < max_attempts /\ attempt l' = attempt l + 1.
Proof.
  assert (X : forall l0 e tr0,
             on_exception w schema l0 e tr0 = (Continue l', tr') ->
             attempt l0 < max_attempts /\ attempt l' = attempt l0 + 1).
  { intros l0 e tr0. rewrite on_exception_eq.
    destruct (attempt l0 <? max_attempts) eqn:E; [|discriminate].
    apply Nat.ltb_lt in E. destruct (cypher l0); [|discriminate].
    cbn zeta. intros H. injection H as <- _. auto. }
  rewrite iteration_eq. cbn zeta.
  destruct (generated _) as [c|e]; [|apply X].
  destruct (db w _ c) as [results|e]; [|apply (X (Locals _ _ _))].
  destruct (provide_intelligent_answer_total to_string repr_columns w question
              (match results with [] => [] | _ :: _ => results end) c
              ((tr ++ [LLMCall (generation_prompt question schema
                                  (context_of (previous_attempts l)))
                         (llm w tr (generation_prompt question schema
                                      (context_of (previous_attempts l))))])
               ++ [DBQuery c (Ok results)]))
    as [a [tr3 [E3 _]]].
  rewrite E3.
  destruct (display_markdown w a tr3); [discriminate | apply (X (Locals _ _ _))].
Qed.

(** A session ends whatever happened before it. *)
Lemma session_ends (question schema : str) (cypher0 : option str) (tr : trace) :
  exists o l tr',
    session to_string repr_columns w question schema cypher0 tr = Some (o, l, tr').
Proof.
  unfold session.
  destruct (retry_loop_rule to_string repr_columns w question schema
              (fun l _ => 1 <= attempt l <= max_attempts) (fun _ _ _ => True))
    with (fuel := max_attempts) (l := Locals 1 [] cypher0) (tr := tr)
    as [o [l [tr' [E _]]]].
  - intros l tr0 Ha _.
    destruct (iteration to_string repr_columns w question schema l tr0)
      as [[l' | o l'] tr'] eqn:E; [|exact I].
    destruct (iteration_continue _ _ _ _ _ _ E) as [H1 H2]. lia.
  - intros l tr0 Ha Hgt. lia.
  - unfold max_attempts. cbn. lia.
  - unfold max_attempts. cbn. lia.
  - eauto.
Qed.

Lemma blank_is_not_sentinel (line : str) : is_blank line = true -> is_sentinel line = false.
Proof.
  unfold is_blank, is_sentinel. destruct (strip line); [reflexivity | discriminate].
Qed.

Lemma question_loop_cons (schema : str) (line : str) (inputs : list str)
  (cypher0 : option str) (tr : trace) :
  question_loop to_string repr_columns w schema (line :: inputs) cypher0 tr =
  if is_sentinel line then Some ([], SentinelRead, tr)
  else if is_blank line
       then question_loop to_string repr_columns w schema inputs cypher0 tr
       else
         match session to_string repr_columns w (strip line) schema cypher0 tr with
         | None => None
         | Some (o, l, tr') =>
             match question_loop to_string repr_columns w schema inputs (cypher l) tr' with
             | Some (os, ending, tr'') => Some (o :: os, ending, tr'')
             | None => None
             end
         end.
Proof. reflexivity. Qed.

(** X17.  A line that reads exit, quit or q, in any letter case and with
    any white space around it, ends the question loop: the lines after it
    are not read, no service is called for them.  The run has the
    sessions and the calls of the lines before the sentinel, and it ends
    by the sentinel. *)
Theorem lines_after_a_sentinel_are_not_read (schema : str)
  (before : list str) (line : str) (after : list str)
  (cypher0 : option str) (tr : trace) :
  is_sentinel line = true ->
  question_loop to_string repr_columns w schema (before ++ line :: after) cypher0 tr
  = question_loop to_string repr_columns w schema (before ++ [line]) cypher0 tr /\
  forall outcomes ending tr',
    question_loop to_string repr_columns w schema before cypher0 tr
    = Some (outcomes, ending, tr') ->
    question_loop to_string repr_columns w schema (before ++ line :: after) cypher0 tr
    = Some (outcomes, SentinelRead, tr').
Proof.
  intros Hs. split.
  - revert cypher0 tr. induction before as [|x before IH]; intros cypher0 tr.
    + cbn [app]. rewrite !question_loop_cons, Hs. reflexivity.
    + cbn [app]. rewrite !question_loop_cons.
      destruct (is_sentinel x); [reflexivity|].
      destruct (is_blank x); [apply IH|].
      destruct (session _ _ _ _ _ _ _) as [[[o l] tr']|]; [|reflexivity].
      rewrite IH. reflexivity.
  - revert cypher0 tr. induction before as [|x before IH];
      intros cypher0 tr outcomes ending tr' H.
    + cbn [app]. rewrite question_loop_cons, Hs.
      cbn [question_loop] in H. injection H as <- _ <-. reflexivity.
    + cbn [app]. rewrite question_loop_cons in H. rewrite question_loop_cons.
      destruct (is_sentinel x).
      * injection H as <- _ <-. reflexivity.
      * destruct (is_blank x); [apply (IH _ _ _ _ _ H)|].
        destruct (session _ _ _ _ _ _ _) as [[[o l] tr1]|]; [|discriminate].
        destruct (question_loop _ _ _ _ before _ _) as [[[os e] tr2]|] eqn:E;
          [|discriminate].
        injection H as <- _ <-. rewrite (IH _ _ _ _ _ E). reflexivity.
Qed.

(** X18.  Lines that hold only white space are passed over: they start no
    session and call no service.  The loop is left through a sentinel
    only: when some line is a sentinel the function returns, and when no
    line is one, every line that is not blank gets exactly one session
    and the run ends where [input] has nothing more to read. *)
Theorem each_question_gets_one_session (schema : str) (inputs : list str)
  (cypher0 : option str) (tr : trace) :
  question_loop to_string repr_columns w schema
    (filter (fun line => negb (is_blank line)) inputs) cypher0 tr
  = question_loop to_string repr_columns w schema inputs cypher0 tr /\
  exists outcomes ending tr',
    question_loop to_string repr_columns w schema inputs cypher0 tr
    = Some (outcomes, ending, tr') /\
    (existsb is_sentinel inputs = true -> ending = SentinelRead) /\
    (existsb is_sentinel inputs = false ->
     ending = InputExhausted /\
     length outcomes = length (filter (fun line => negb (is_blank line)) inputs)).
Proof.
  split.
  - revert cypher0 tr. induction inputs as [|x inputs IH]; intros cypher0 tr;
      [reflexivity|].
    cbn [filter]. destruct (is_blank x) eqn:B; cbn [negb].
    + rewrite (question_loop_cons schema x inputs), (blank_is_not_sentinel x B), B.
      apply IH.
    + rewrite !question_loop_cons, B.
      destruct (is_sentinel x); [reflexivity|].
      destruct (session _ _ _ _ _ _ _) as [[[o l] tr']|]; [|reflexivity].
      rewrite IH. reflexivity.
  - revert cypher0 tr. induction inputs as [|x inputs IH]; intros cypher0 tr.
    + exists [], InputExhausted, tr. cbn. repeat split; auto. discriminate.
    + rewrite question_loop_cons. cbn [existsb filter].
      destruct (is_sentinel x) eqn:Hx; cbn [orb].
      * exists [], SentinelRead, tr. repeat split; auto; discriminate.
      * destruct (is_blank x); cbn [negb]; [apply IH|].
        destruct (session_ends (strip x) schema cypher0 tr) as [o [l [tr' E]]].
        rewrite E. destruct (IH (cypher l) tr') as [os [e [tr'' [E' [H1 H2]]]]].
        rewrite E'. exists (o :: os), e, tr''. split; [reflexivity|].
        split; [exact H1|]. intros H. destruct (H2 H) as [-> L].
        cbn [length]. auto.
Qed.

End MoreOnTheQuestionLoop.

Lemma lines_after_a_sentinel_are_not_read_witness :
  question_loop no_rendering no_repr finding_nothing schema
    ([py "   "; question] ++ py "  QuIt " :: [later_question]) None []
  = question_loop no_rendering no_repr finding_nothing schema
      ([py "   "; question] ++ [py "  QuIt "]) None [] /\
  exists answer tr',
    question_loop no_rendering no_repr finding_nothing schema
      ([py "   "; question] ++ py "  QuIt " :: [later_question]) None []
    = Some ([Answered repaired_query [] answer], SentinelRead, tr') /\
    count is_llm tr' = 1.
Proof.
  destruct (lines_after_a_sentinel_are_not_read no_rendering no_repr finding_nothing
              schema [py "   "; question] (py "  QuIt ") [later_question] None []
              eq_refl) as [H1 H2].
  split; [exact H1|].
  eexists _, _.
  split; [apply (H2 _ InputExhausted _); vm_compute; reflexivity | reflexivity].
Defined.

Lemma each_question_gets_one_session_witness :
  (exists outcomes tr',
     question_loop no_rendering no_repr finding_nothing schema
       [question; py "  "; question] None []
     = Some (outcomes, InputExhausted, tr') /\ length outcomes = 2) /\
  (exists outcomes tr',
     question_loop no_rendering no_repr finding_nothing schema
       [question; py " Q "; question] None []
     = Some (outcomes, SentinelRead, tr')).
Proof.
  split.
  - destruct (proj2 (each_question_gets_one_session no_rendering no_repr
                       finding_nothing schema [question; py "  "; question] None []))
      as [os [e [tr' [E [_ H]]]]].
    destruct (H eq_refl) as [-> L]. exists os, tr'. split; [exact E | exact L].
  - destruct (proj2 (each_question_gets_one_session no_rendering no_repr
                       finding_nothing schema [question; py " Q "; question] None []))
      as [os [e [tr' [E [H _]]]]].
    rewrite (H eq_refl) in E. exists os, tr'. exact E.
Defined.

Section MoreOnThePipeline.

Variable to_string : nat -> list row -> str.
Variable repr_columns : list str -> str.
Variable w : World.

Lemma word_not_space (c : ascii) : is_word c = true -> is_space c = false.
Proof.
  intros H. destruct (is_space c) eqn:E; [|reflexivity].
  rewrite (space_not_word c E) in H. discriminate.
Qed.

Lemma first_of_words (x : str) (c : ascii) :
  forallb is_word x = true -> first_char x = Some c -> is_word c = true.
Proof.
  destruct x as [|a x]; [discriminate|]. simpl. intros W E. injection E as <-.
  apply andb_true_iff in W. apply W.
Qed.

Lemma last_of_words (x : str) (c : ascii) :
  forallb is_word x = true -> last_char x = Some c -> is_word c = true.
Proof.
  intros W E. rewrite forallb_forall in W. apply W, in_rev.
  unfold last_char in E. destruct (rev x); [discriminate|].
  injection E as <-. left. reflexivity.
Qed.

Lemma keyword_span_edges (m mid r : str) :
  same_letters m (py "MATCH") -> same_letters r (py "RETURN") ->
  trimmed (m ++ mid ++ r) /\ endswith_char semicolon (m ++ mid ++ r) = false.
Proof.
  intros Hm Hr.
  assert (Wm : forallb is_word m = true)
    by (eapply same_letters_words; [|exact Hm]; reflexivity).
  assert (Wr : forallb is_word r = true)
    by (eapply same_letters_words; [|exact Hr]; reflexivity).
  assert (Nm : m <> []).
  { intros E. apply same_letters_length in Hm. rewrite E in Hm. discriminate. }
  assert (Nr : r <> []).
  { intros E. apply same_letters_length in Hr. rewrite E in Hr. discriminate. }
  assert (L : last_char (m ++ mid ++ r) = last_char r).
  { rewrite app_assoc. apply last_char_app_ne, Nr. }
  split; [split|].
  - intros c Hc. apply word_not_space, (first_of_words m); [exact Wm|].
    destruct m; [congruence | exact Hc].
  - intros c Hc. rewrite L in Hc. apply word_not_space, (last_of_words r); assumption.
  - destruct (endswith_char semicolon (m ++ mid ++ r)) eqn:E; [|reflexivity].
    apply endswith_char_last in E. rewrite L in E.
    pose proof (last_of_words r _ Wr E) as W. discriminate.
Qed.

(** X19.  When a response has no fence and the fallback stops at a RETURN
    keyword, what follows that keyword is lost: the query that leaves the
    extractor and the validator is the text from MATCH through the word
    RETURN, with the delimiter right after it. *)
Theorem fallback_drops_what_follows_return (pre m mid r post : str) :
  contains fence (pre ++ m ++ mid ++ r ++ post) = false ->
  same_letters m (py "MATCH") -> same_letters r (py "RETURN") ->
  earliest (starts_ci (py "MATCH")) pre (m ++ mid ++ r ++ post) ->
  earliest stops_here mid (r ++ post) ->
  ~ denylisted (m ++ mid ++ r) ->
  checked (Ok (pre ++ m ++ mid ++ r ++ post)) = Ok ((m ++ mid ++ r) ++ [semicolon]).
Proof.
  intros Hf Hm Hr Hpre Hmid Hd. unfold checked.
  rewrite (extract_match_span pre m mid r post Hf Hm Hr Hpre Hmid).
  destruct (keyword_span_edges m mid r Hm Hr) as [T E].
  rewrite (trimmed_strip _ T), (validate_ok _ Hd), (trimmed_strip _ T).
  unfold terminated. rewrite E. reflexivity.
Qed.

(** X20.  Validation leaves the inside of a query alone: the result is
    the query without the white space around it, with the delimiter added
    at the end when it was not there. *)
Theorem validation_only_trims_and_terminates (s v : str) :
  validate_cypher_query s = Ok v ->
  exists l body r,
    s = l ++ body ++ r /\
    forallb is_space l = true /\ forallb is_space r = true /\
    trimmed body /\
    ((endswith_char semicolon body = true /\ v = body) \/
     (endswith_char semicolon body = false /\ v = body ++ [semicolon])).
Proof.
  intros H. apply validate_ok_inv in H. destruct H as [_ ->].
  destruct (strip_split s) as [l [r [E [Fl Fr]]]].
  exists l, (strip s), r. repeat split; try assumption; try apply strip_trimmed.
  unfold terminated. destruct (endswith_char semicolon (strip s)); auto.
Qed.

(** X21.  Once the database has answered, the analysis cannot fail the
    attempt: whatever the service does, the interpreter returns a text.
    The pass then ends the session with an answer for that query and
    those rows when the text is displayed; when the display raises, the
    pass goes to the failure handling with that query bound. *)
Theorem successful_execution_answers_once_displayed (question schema : str)
  (l : locals) (tr : trace) (query : str) (results : list row) :
  generated (llm w tr (generation_prompt question schema
                         (context_of (previous_attempts l)))) = Ok query ->
  db w (tr ++ [LLMCall (generation_prompt question schema
                          (context_of (previous_attempts l)))
                 (llm w tr (generation_prompt question schema
                              (context_of (previous_attempts l))))])
       query = Ok results ->
  exists ai_answer tr',
    provide_intelligent_answer to_string repr_columns w question results query
      ((tr ++ [LLMCall (generation_prompt question schema
                          (context_of (previous_attempts l)))
                 (llm w tr (generation_prompt question schema
                              (context_of (previous_attempts l))))])
       ++ [DBQuery query (Ok results)])
    = (Ok ai_answer, tr') /\
    (display_markdown w ai_answer tr' = Ok tt ->
     iteration to_string repr_columns w question schema l tr
     = (Break (Answered query results ai_answer)
              (Locals (attempt l) (previous_attempts l) (Some query)), tr')) /\
    (forall e, display_markdown w ai_answer tr' = Raise e ->
     iteration to_string repr_columns w question schema l tr
     = on_exception w schema
         (Locals (attempt l) (previous_attempts l) (Some query)) e tr').
Proof.
  intros Hg Hd. rewrite iteration_eq. cbn zeta. rewrite Hg, Hd.
  replace (match results with [] => [] | _ :: _ => results end) with results
    by (destruct results; reflexivity).
  destruct (provide_intelligent_answer_total to_string repr_columns w question
              results query
              ((tr ++ [LLMCall (generation_prompt question schema
                                  (context_of (previous_attempts l)))
                         (llm w tr (generation_prompt question schema
                                      (context_of (previous_attempts l))))])
               ++ [DBQuery query (Ok results)]))
    as [a [tr3 [E3 _]]].
  rewrite E3. exists a, tr3. split; [reflexivity|]. split.
  - intros ->. reflexivity.
  - intros e ->. reflexivity.
Qed.

End MoreOnThePipeline.

Lemma fallback_drops_what_follows_return_witness :
  checked (Ok (py "Use " ++ py "MATCH" ++ py " (b:Book) " ++ py "RETURN"
               ++ py " b.title LIMIT 5"))
  = Ok ((py "MATCH" ++ py " (b:Book) " ++ py "RETURN") ++ [semicolon]).
Proof.
  apply (fallback_drops_what_follows_return (py "Use ") (py "MATCH")
           (py " (b:Book) ") (py "RETURN") (py " b.title LIMIT 5")).
  - reflexivity.
  - reflexivity.
  - reflexivity.
  - apply earliestb_sound. vm_compute. reflexivity.
  - apply earliestb_sound. vm_compute. reflexivity.
  - intros D. apply denylisted_found in D. vm_compute in D. discriminate.
Defined.

Lemma validation_only_trims_and_terminates_witness :
  exists l body r,
    py "  MATCH (n) RETURN n " = l ++ body ++ r /\
    forallb is_space l = true /\ forallb is_space r = true /\
    trimmed body /\
    ((endswith_char semicolon body = true /\ py "MATCH (n) RETURN n;" = body) \/
     (endswith_char semicolon body = false /\
      py "MATCH (n) RETURN n;" = body ++ [semicolon])).
Proof.
  apply (validation_only_trims_and_terminates (py "  MATCH (n) RETURN n ")).
  vm_compute. reflexivity.
Defined.

Lemma successful_execution_answers_once_displayed_witness :
  exists ai_answer tr',
    iteration no_rendering no_repr failing_later question schema (Locals 1 [] None) []
    = (Break (Answered repaired_query [[(py "b", py "Emma")]] ai_answer)
             (Locals 1 [] (Some repaired_query)), tr') /\
    count is_llm tr' = 2.
Proof.
  destruct (successful_execution_answers_once_displayed
              no_rendering no_repr failing_later
              question schema (Locals 1 [] None) [] repaired_query
              [[(py "b", py "Emma")]] eq_refl eq_refl) as [a [tr' [E [H _]]]].
  exists a, tr'. split.
  - apply H. apply (displays_quietly_without_loading failing_later). reflexivity.
  - vm_compute in E. injection E as _ <-. reflexivity.
Defined.
